(** * SPU RAM pool allocator of KallistiOS (kernel/arch/dreamcast/sound/snd_mem.c)

    A shallow embedding of the best-fit allocator with lazy coalescing:
    [snd_mem_init], [snd_mem_shutdown], [snd_mem_malloc], [snd_mem_free] and
    [snd_mem_available], followed by the properties of the ledger of blocks.

    Conventions of the embedding.
    - [uint32] and [size_t] (32 bits wide on the SH-4) are integers of [Z];
      every C operation that can leave [0, 2^32) is followed by [wrap32].
    - The TAILQ [pool] is a [list snd_block_t] in queue order.  A block pointer
      is the index of the block in the list: TAILQ_PREV is index - 1,
      TAILQ_NEXT is index + 1, TAILQ_INSERT_AFTER and TAILQ_REMOVE are list
      insertion and deletion at an index.
    - [spinlock_lock_irqsafe] and the [malloc] of a block record are the two
      calls whose result the allocator cannot decide; each call site takes a
      boolean saying whether that call succeeded.
    - [assert_msg(initted, ...)] is modelled as in a build with assertions
      enabled: the call stops with [AssertFails].
    - [dbglog (DBG_ERROR, ...)] calls and [errno] assignments are returned as a
      list of [event]s.  The [DBG_DEBUG] messages, all under
      [__is_defined(SNDMEMDEBUG)] with [SNDMEMDEBUG] defined as 0, are left out:
      they change neither the pool nor a return value. *)

From Stdlib Require Import ZArith Lia Bool.
From stdpp Require Import base list strings.

Open Scope Z_scope.

(** ** Machine arithmetic *)

Definition wrap32 (z : Z) : Z := z mod 2 ^ 32.

(** [(x + 0x1f) & ~0x1f] on a 32-bit unsigned [x]. *)
Definition align32 (x : Z) : Z :=
  Z.land (wrap32 (x + 0x1f)) (wrap32 (Z.lnot 0x1f)).

(** ** Data *)

(** [snd_block_t], without the queue entry.  [inuse] is an [int] that the code
    only ever sets to 0 or 1 and tests with [!]. *)
Record snd_block_t : Type := mk_block {
  addr : Z;
  size : Z;
  inuse : bool
}.

(** The static variables [initted] and [pool]. *)
Record pool_state : Type := mk_state {
  initted : bool;
  pool : list snd_block_t
}.

Inductive errno_t : Type := EAGAIN | ENOMEM.

Inductive event : Type :=
| SetErrno (e : errno_t)
    (* errno = e *)
| LogNoChunk (sz : Z)
    (* "snd_mem_malloc: no chunks big enough for alloc(%d)" *)
| LogNoMainMemory (sz : Z)
    (* "snd_mem_malloc: not enough main memory to alloc(%d)" *)
| LogFreeNonExistent (arg : Z).
    (* "snd_mem_free: attempt to free non-existent block at %08lx" *)

Inductive outcome (A : Type) : Type :=
| Returns (a : A)
| AssertFails.
Arguments Returns {A} a.
Arguments AssertFails {A}.

Definition set_inuse (u : bool) (b : snd_block_t) : snd_block_t :=
  {| addr := addr b; size := size b; inuse := u |}.

Definition set_size (sz : Z) (b : snd_block_t) : snd_block_t :=
  {| addr := addr b; size := sz; inuse := inuse b |}.

(** TAILQ_INSERT_AFTER (&pool, l[i], e, qent). *)
Definition insert_after (i : nat) (e : snd_block_t) (l : list snd_block_t)
  : list snd_block_t :=
  take (S i) l ++ e :: drop (S i) l.

(** ** snd_mem_shutdown

    The loop frees every record.  The source leaves the queue head as it is;
    with [initted] at 0 nothing reads it before the TAILQ_INIT of the next
    [snd_mem_init], so the queue is modelled as empty from here on. *)

Definition snd_mem_shutdown (lock_ok : bool) (s : pool_state) : pool_state :=
  if negb (initted s) then s
  else if negb lock_ok then s
  else {| initted := false; pool := [] |}.

(** ** snd_mem_init *)

Definition snd_mem_init (shutdown_lock_ok lock_ok malloc_ok : bool)
    (reserve : Z) (s : pool_state) : Z * pool_state * list event :=
  let s := if initted s then snd_mem_shutdown shutdown_lock_ok s else s in
  if negb lock_ok then (-1, s, [SetErrno EAGAIN])
  else
    let reserve := align32 reserve in
    (* TAILQ_INIT (&pool) *)
    let s := {| initted := initted s; pool := [] |} in
    if negb malloc_ok then (-1, s, [SetErrno ENOMEM])
    else
      let blk := {| addr := reserve;
                    size := wrap32 (2 * 1024 * 1024 - reserve);
                    inuse := false |} in
      (0, {| initted := true; pool := blk :: pool s |}, []).

(** ** snd_mem_malloc *)

(** One iteration of the search loop.  The loop state is the index of the
    block under the cursor, [best] (the index it points to and the block there)
    and [best_size]. *)
Definition scan_step (sz : Z)
    (st : nat * option (nat * snd_block_t) * Z) (e : snd_block_t)
  : nat * option (nat * snd_block_t) * Z :=
  let '(i, best, best_size) := st in
  if (sz <=? size e) && (size e <? best_size) && negb (inuse e)
  then (S i, Some (i, e), size e)
  else (S i, best, best_size).

Definition scan_best (sz : Z) (l : list snd_block_t)
  : nat * option (nat * snd_block_t) * Z :=
  fold_left (scan_step sz) l (0%nat, None, 4 * 1024 * 1024).

Definition find_best (sz : Z) (l : list snd_block_t)
  : option (nat * snd_block_t) :=
  snd (fst (scan_best sz l)).

Definition snd_mem_malloc (lock_ok malloc_ok : bool) (sz : Z) (s : pool_state)
  : outcome (Z * pool_state * list event) :=
  if negb (initted s) then AssertFails
  else if sz =? 0 then Returns (0, s, [])
  else if negb lock_ok then Returns (0, s, [SetErrno EAGAIN])
  else
    let sz := align32 sz in
    match find_best sz (pool s) with
    | None => Returns (0, s, [LogNoChunk sz])
    | Some (i, best) =>
        if size best =? sz
        then Returns (addr best,
                      {| initted := initted s;
                         pool := <[i := set_inuse true best]> (pool s) |},
                      [])
        else if negb malloc_ok then Returns (0, s, [LogNoMainMemory sz])
        else
          let e := {| addr := wrap32 (addr best + sz);
                      size := wrap32 (size best - sz);
                      inuse := false |} in
          let best' := {| addr := addr best; size := sz; inuse := true |} in
          Returns (addr best,
                   {| initted := initted s;
                      pool := <[i := best']> (insert_after i e (pool s)) |},
                   [])
    end.

(** ** snd_mem_free *)

(** "Can we coalesce with the block before us?"  [i] is the index of [e];
    the result is the index of the block that [e] names afterwards, and the
    queue. *)
Definition coalesce_prev (i : nat) (l : list snd_block_t)
  : nat * list snd_block_t :=
  match i with
  | O => (i, l)
  | S j =>
      match l !! j, l !! i with
      | Some o, Some e =>
          if negb (inuse o)
          then (j, delete i (<[j := set_size (wrap32 (size o + size e)) o]> l))
          else (i, l)
      | _, _ => (i, l)
      end
  end.

(** "Can we coalesce with the block in front of us?" *)
Definition coalesce_next (i : nat) (l : list snd_block_t)
  : list snd_block_t :=
  match l !! i, l !! S i with
  | Some e, Some o =>
      if negb (inuse o)
      then delete (S i) (<[i := set_size (wrap32 (size e + size o)) e]> l)
      else l
  | _, _ => l
  end.

Definition snd_mem_free (lock_ok : bool) (a : Z) (s : pool_state)
  : outcome (pool_state * list event) :=
  if negb (initted s) then AssertFails
  else if a =? 0 then Returns (s, [])
  else if negb lock_ok then Returns (s, [])
  else
    match list_find (λ e, addr e = a) (pool s) with
    | None =>
        (* the message prints the loop cursor, which is NULL here *)
        Returns (s, [LogFreeNonExistent 0])
    | Some (i, e) =>
        let l := <[i := set_inuse false e]> (pool s) in
        let '(i, l) := coalesce_prev i l in
        Returns ({| initted := initted s; pool := coalesce_next i l |}, [])
    end.

(** ** snd_mem_available *)

Definition snd_mem_available (lock_ok : bool) (s : pool_state)
  : Z * list event :=
  if negb (initted s) then (0, [])
  else if negb lock_ok then (0, [SetErrno EAGAIN])
  else
    (wrap32 (fold_left (λ largest e,
                          if largest <? size e then size e else largest)
                       (pool s) 0),
     []).

(** * Specification vocabulary *)

Definition uint32 (z : Z) : Prop := 0 ≤ z < 2 ^ 32.

(** The capacity of SPU RAM that [snd_mem_init] spreads over the first
    block, and the first value of [best_size] in [snd_mem_malloc]. *)
Definition capacity : Z := 2 * 1024 * 1024.
Definition best_size_limit : Z := 4 * 1024 * 1024.

Definition uninit : pool_state := {| initted := false; pool := [] |}.


(** ** The ledger invariants *)

(** Coverage: addresses ascend and each block ends where the next begins. *)
Fixpoint Coverage (l : list snd_block_t) : Prop :=
  match l with
  | e1 :: ((e2 :: _) as tl) =>
      addr e1 < addr e2 ∧ addr e1 + size e1 = addr e2 ∧ Coverage tl
  | _ => True
  end.

Definition total_size (l : list snd_block_t) : Z :=
  foldr (λ e acc, size e + acc) 0 l.

(** Conservation, for a pool whose (rounded) reserved base is [r]. *)
Definition Conservation (r : Z) (l : list snd_block_t) : Prop :=
  total_size l = capacity - r.

Definition Alignment (l : list snd_block_t) : Prop :=
  Forall (λ e, addr e mod 32 = 0 ∧ size e mod 32 = 0) l.

Definition ledger_inv (r : Z) (l : list snd_block_t) : Prop :=
  Coverage l ∧ Conservation r l ∧ Alignment l.

Fixpoint no_adjacent_free (l : list snd_block_t) : Prop :=
  match l with
  | e1 :: ((e2 :: _) as tl) =>
      (inuse e1 = true ∨ inuse e2 = true) ∧ no_adjacent_free tl
  | _ => True
  end.

(** ** Reachable states

    [reachable_within rmax smax r h s]: [s] is reached from a successful
    [snd_mem_init] whose rounded reserve [r] is at most [rmax], by calls of
    [snd_mem_malloc] with sizes at most [smax], [snd_mem_free] and
    [snd_mem_available]; [h] lists what [snd_mem_malloc] returned since that
    [snd_mem_init], latest first. *)
Inductive reachable_within (rmax smax : Z) : Z → list Z → pool_state → Prop :=
| reach_init sd_ok lk_ok m_ok reserve s0 s ev :
    uint32 reserve →
    align32 reserve ≤ rmax →
    snd_mem_init sd_ok lk_ok m_ok reserve s0 = (0, s, ev) →
    reachable_within rmax smax (align32 reserve) [] s
| reach_malloc r h s lk_ok m_ok sz p s' ev :
    reachable_within rmax smax r h s →
    uint32 sz →
    sz ≤ smax →
    snd_mem_malloc lk_ok m_ok sz s = Returns (p, s', ev) →
    reachable_within rmax smax r (p :: h) s'
| reach_free r h s lk_ok a s' ev :
    reachable_within rmax smax r h s →
    uint32 a →
    snd_mem_free lk_ok a s = Returns (s', ev) →
    reachable_within rmax smax r h s'
| reach_available r h s lk_ok v ev :
    reachable_within rmax smax r h s →
    snd_mem_available lk_ok s = (v, ev) →
    reachable_within rmax smax r h s.

(** Any 32-bit reserve and any 32-bit request. *)
Definition reachable : Z → list Z → pool_state → Prop :=
  reachable_within (2 ^ 32) (2 ^ 32).

(** The reserve does not round beyond the capacity and no request rounds
    beyond 2^32. *)
Definition reachable_in_range : Z → list Z → pool_state → Prop :=
  reachable_within capacity (2 ^ 32 - 32).

(** ** Best fit *)

(** The blocks the search loop can select for a rounded request [sz]. *)
Definition candidate (sz : Z) (e : snd_block_t) : Prop :=
  inuse e = false ∧ sz ≤ size e ∧ size e < best_size_limit.

(** The free blocks that are large enough, whatever their size. *)
Definition large_enough_free (sz : Z) (e : snd_block_t) : Prop :=
  inuse e = false ∧ sz ≤ size e.

(** [l !! i = Some b] is the first block of the smallest size among the
    blocks that satisfy [cand]. *)
Definition best_fit (cand : snd_block_t → Prop) (l : list snd_block_t)
    (i : nat) (b : snd_block_t) : Prop :=
  l !! i = Some b ∧ cand b ∧
  ∀ j c, l !! j = Some c → cand c →
         size b ≤ size c ∧ (size c = size b → (i ≤ j)%nat).

(** The selection rule of [snd_mem_malloc] for the candidates [cand]: the
    search finds nothing exactly when there is no candidate, finds exactly the
    best fit otherwise, and a non-zero return value is the address of the
    block found. *)
Definition selects_best_fit (cand : Z → snd_block_t → Prop)
    (s : pool_state) (sz : Z) : Prop :=
  (find_best (align32 sz) (pool s) = None ↔
     ∀ e, e ∈ pool s → ¬ cand (align32 sz) e) ∧
  (∀ i b, find_best (align32 sz) (pool s) = Some (i, b) ↔
          best_fit (cand (align32 sz)) (pool s) i b) ∧
  (∀ lk_ok m_ok p s' ev,
     snd_mem_malloc lk_ok m_ok sz s = Returns (p, s', ev) → p ≠ 0 →
     ∃ i b, find_best (align32 sz) (pool s) = Some (i, b) ∧ p = addr b).

(** ** The largest free block *)

Definition largest_free (l : list snd_block_t) : Z :=
  foldr (λ e m, if inuse e then m else Z.max (size e) m) 0 l.


(** The pool after [snd_mem_malloc] has split the block [b] at index [i] for a
    rounded request [sz]. *)
Definition split_at (i : nat) (b : snd_block_t) (sz : Z)
    (l : list snd_block_t) : list snd_block_t :=
  take i l ++ mk_block (addr b) sz true
           :: mk_block (wrap32 (addr b + sz)) (wrap32 (size b - sz)) false
           :: drop (S i) l.

(** ** Predicates used in the proofs *)

(** The invariant of the search loop of [snd_mem_malloc]. *)
Definition scan_inv (sz : Z) (l : list snd_block_t)
    (st : nat * option (nat * snd_block_t) * Z) : Prop :=
  let '(i, best, bs) := st in
  i = length l ∧
  match best with
  | None => bs = best_size_limit ∧ ∀ e, e ∈ l → ¬ candidate sz e
  | Some (j, b) => bs = size b ∧ best_fit (candidate sz) l j b
  end.

(** Backward coalescing of the freed block [e] with the blocks [pre] before
    it: the blocks that stay in front, and the block [e] names afterwards. *)
Inductive merged_prev :
  list snd_block_t → snd_block_t → list snd_block_t → snd_block_t → Prop :=
| merged_prev_first e : merged_prev [] e [] e
| merged_prev_inuse pre o e :
    inuse o = true → merged_prev (pre ++ [o]) e (pre ++ [o]) e
| merged_prev_free pre o e :
    inuse o = false →
    merged_prev (pre ++ [o]) e pre (set_size (wrap32 (size o + size e)) o).

(** Forward coalescing of the current block with the blocks [suf] after it. *)
Inductive merged_next :
  snd_block_t → list snd_block_t → snd_block_t → list snd_block_t → Prop :=
| merged_next_last e : merged_next e [] e []
| merged_next_inuse e o suf :
    inuse o = true → merged_next e (o :: suf) e (o :: suf)
| merged_next_free e o suf :
    inuse o = false →
    merged_next e (o :: suf) (set_size (wrap32 (size e + size o)) e) suf.

(** Every block in use has an address that [snd_mem_malloc] returned. *)
Definition inuse_returned (h : list Z) (l : list snd_block_t) : Prop :=
  Forall (λ b, inuse b = true → addr b ∈ h) l.

(** [tiles a l]: the blocks of [l] tile [a, capacity) in order, every address
    and size is a multiple of 32, and only the last block can be empty. *)
Fixpoint tiles (a : Z) (l : list snd_block_t) : Prop :=
  match l with
  | [] => a = capacity
  | b :: l' =>
      addr b = a ∧ a mod 32 = 0 ∧ size b mod 32 = 0 ∧
      (0 < size b ∨ (size b = 0 ∧ l' = [])) ∧
      tiles (a + size b) l'
  end.

(** An initialised pool with the queue [l]. *)
Definition pool_of (l : list snd_block_t) : pool_state :=
  {| initted := true; pool := l |}.

(** ** Bytes in use *)

(** The bytes of SPU RAM that the queue records as in use. *)
Definition used_bytes (l : list snd_block_t) : Z :=
  foldr (λ e acc, if inuse e then size e + acc else acc) 0 l.

(** * The debug console (kernel/debug/dbgio.c)

    The module keeps the selected handler and an enable flag, and passes
    every request on to the selected handler.

    - The type [dbgio_handler_t] is declared in kos/dbgio.h; its fields are
      read here off the initialiser of [dbgio_null] and off the calls
      [dbgio->...] in dbgio.c: a name and nine functions.
    - The functions of a handler drive a device.  They are functions on a
      [machine]: the last value assigned to [errno] and the state [W] of the
      devices, a parameter of the model.
    - The table [dbgio_handlers] with its length [dbgio_handler_cnt] is
      defined per platform; the functions that walk it take it as a list.
    - A handler pointer is the handler itself; [NULL] is [None].  A C string
      is a [string]; [strcmp] returning 0 is equality of strings.
    - [assert (dbgio)] stops the call with [AssertFails]. *)
Module Dbgio.

Inductive errno_t : Type := ENODEV | EAGAIN.

(** Conversion of a value to [int]. *)
Definition to_int (z : Z) : Z := (z + 2 ^ 31) mod 2 ^ 32 - 2 ^ 31.

Section Handlers.

Context {W : Type}.

Record machine : Type := mk_machine {
  errno : option errno_t;
  devices : W
}.

Definition set_errno (e : errno_t) (m : machine) : machine :=
  {| errno := Some e; devices := devices m |}.

Record dbgio_handler_t : Type := mk_handler {
  name : string;
  detected : machine → Z * machine;
  init : machine → Z * machine;
  shutdown : machine → Z * machine;
  set_irq_usage : Z → machine → Z * machine;
  read : machine → Z * machine;
  write : Z → machine → Z * machine;
  flush : machine → Z * machine;
  (* write_buffer (data, len, xlat) *)
  write_buffer : list Z → Z → Z → machine → Z * machine;
  (* read_buffer (data, len): the value returned and the bytes stored *)
  read_buffer : Z → machine → Z * list Z * machine
}.

(** The static variables [dbgio] and [dbgio_enabled], and the machine. *)
Record dbgio_state : Type := mk_dbgio {
  dbgio : option dbgio_handler_t;
  dbgio_enabled : bool;
  mach : machine
}.

Definition with_mach (m : machine) (st : dbgio_state) : dbgio_state :=
  {| dbgio := dbgio st; dbgio_enabled := dbgio_enabled st; mach := m |}.

Definition with_dbgio (h : option dbgio_handler_t) (st : dbgio_state)
  : dbgio_state :=
  {| dbgio := h; dbgio_enabled := dbgio_enabled st; mach := mach st |}.

(** ** dbgio_dev_select: the loop from index [i] on is the recursion on the
    rest of the table. *)
Fixpoint dbgio_dev_select (dbgio_handlers : list dbgio_handler_t)
    (nm : string) (st : dbgio_state) : Z * dbgio_state :=
  match dbgio_handlers with
  | [] => (-1, with_mach (set_errno ENODEV (mach st)) st)
  | h :: rest =>
      if String.eqb (name h) nm
      then
        let '(r, m) := init h (mach st) in
        if negb (r =? 0)
        then (-1, with_mach (set_errno ENODEV m) st)
        else (0, with_dbgio (Some h) (with_mach m st))
      else dbgio_dev_select rest nm st
  end.

Definition dbgio_dev_get (st : dbgio_state) : option string :=
  match dbgio st with
  | None => None
  | Some h => Some (name h)
  end.

Definition dbgio_enable (st : dbgio_state) : dbgio_state :=
  {| dbgio := dbgio st; dbgio_enabled := true; mach := mach st |}.

Definition dbgio_disable (st : dbgio_state) : dbgio_state :=
  {| dbgio := dbgio st; dbgio_enabled := false; mach := mach st |}.

(** ** dbgio_init *)
Fixpoint dbgio_init (dbgio_handlers : list dbgio_handler_t)
    (st : dbgio_state) : Z * dbgio_state :=
  match dbgio_handlers with
  | [] => (-1, with_mach (set_errno ENODEV (mach st)) st)
  | h :: rest =>
      let '(d, m) := detected h (mach st) in
      if negb (d =? 0)
      then
        (* dbgio = dbgio_handlers[i]; dbgio->init () *)
        let '(r, m') := init h m in
        if r =? 0
        then (0, dbgio_enable (with_dbgio (Some h) (with_mach m' st)))
        else dbgio_init rest (with_dbgio None (with_mach m' st))
      else dbgio_init rest (with_mach m st)
  end.

(** ** The requests passed on to the handler *)

(** [if (dbgio_enabled) { assert (dbgio); return call; } return -1;] *)
Definition forward {A : Type} (st : dbgio_state) (fail : A)
    (call : dbgio_handler_t → A) : outcome A :=
  if dbgio_enabled st
  then match dbgio st with
       | None => AssertFails
       | Some h => Returns (call h)
       end
  else Returns fail.

Definition dbgio_set_irq_usage (mode : Z) (st : dbgio_state)
  : outcome (Z * dbgio_state) :=
  forward st (-1, st)
    (λ h, let '(r, m) := set_irq_usage h mode (mach st) in (r, with_mach m st)).

Definition dbgio_read (st : dbgio_state) : outcome (Z * dbgio_state) :=
  forward st (-1, st)
    (λ h, let '(r, m) := read h (mach st) in (r, with_mach m st)).

Definition dbgio_write (c : Z) (st : dbgio_state)
  : outcome (Z * dbgio_state) :=
  forward st (-1, st)
    (λ h, let '(r, m) := write h c (mach st) in (r, with_mach m st)).

Definition dbgio_flush (st : dbgio_state) : outcome (Z * dbgio_state) :=
  forward st (-1, st)
    (λ h, let '(r, m) := flush h (mach st) in (r, with_mach m st)).

Definition dbgio_write_buffer (data : list Z) (len : Z) (st : dbgio_state)
  : outcome (Z * dbgio_state) :=
  forward st (-1, st)
    (λ h, let '(r, m) := write_buffer h data len 0 (mach st) in
          (r, with_mach m st)).

Definition dbgio_read_buffer (len : Z) (st : dbgio_state)
  : outcome (Z * list Z * dbgio_state) :=
  forward st (-1, [], st)
    (λ h, let '(r, data, m) := read_buffer h len (mach st) in
          (r, data, with_mach m st)).

Definition dbgio_write_buffer_xlat (data : list Z) (len : Z)
    (st : dbgio_state) : outcome (Z * dbgio_state) :=
  forward st (-1, st)
    (λ h, let '(r, m) := write_buffer h data len 1 (mach st) in
          (r, with_mach m st)).

(** The bytes of a C string. *)
Definition bytes_of (str : string) : list Z :=
  map (λ c, Z.of_N (Ascii.N_of_ascii c)) (String.list_ascii_of_string str).

Definition dbgio_write_str (str : string) (st : dbgio_state)
  : outcome (Z * dbgio_state) :=
  if dbgio_enabled st
  then match dbgio st with
       | None => AssertFails
       | Some _ =>
           dbgio_write_buffer_xlat (bytes_of str)
             (to_int (Z.of_nat (String.length str))) st
       end
  else Returns (-1, st).

(** ** The null handler *)

Definition null_detected (m : machine) : Z * machine := (1, m).
Definition null_init (m : machine) : Z * machine := (0, m).
Definition null_shutdown (m : machine) : Z * machine := (0, m).
Definition null_set_irq_usage (mode : Z) (m : machine) : Z * machine := (0, m).
Definition null_read (m : machine) : Z * machine := (-1, set_errno EAGAIN m).
Definition null_write (c : Z) (m : machine) : Z * machine := (1, m).
Definition null_flush (m : machine) : Z * machine := (0, m).
Definition null_write_buffer (data : list Z) (len xlat : Z) (m : machine)
  : Z * machine := (len, m).
Definition null_read_buffer (len : Z) (m : machine)
  : Z * list Z * machine := (-1, [], set_errno EAGAIN m).

Definition dbgio_null : dbgio_handler_t :=
  {| name := "null";
     detected := null_detected;
     init := null_init;
     shutdown := null_shutdown;
     set_irq_usage := null_set_irq_usage;
     read := null_read;
     write := null_write;
     flush := null_flush;
     write_buffer := null_write_buffer;
     read_buffer := null_read_buffer |}.

(** A handler that is detected and whose [init] fails, and that is the
    null handler otherwise; it stands for a device that does not respond. *)
Definition unresponsive (nm : string) : dbgio_handler_t :=
  {| name := nm;
     detected := λ m, (1, m);
     init := λ m, (-1, m);
     shutdown := null_shutdown;
     set_irq_usage := null_set_irq_usage;
     read := null_read;
     write := null_write;
     flush := null_flush;
     write_buffer := null_write_buffer;
     read_buffer := null_read_buffer |}.

End Handlers.

Arguments machine W : clear implicits.
Arguments dbgio_handler_t W : clear implicits.
Arguments dbgio_state W : clear implicits.

End Dbgio.

(** ** Pools reached by requests that do not wrap *)

(** Any 32-bit reserve; no request rounds beyond 2^32. *)
Definition reachable_by_sized_requests : Z → list Z → pool_state → Prop :=
  reachable_within (2 ^ 32) (2 ^ 32 - 32).

(** [wtiles a e l]: the blocks of [l] follow one another from [a] to [e],
    the address of each being its place modulo 2^32, and only the last block
    can be empty.  With a reserve beyond the capacity the blocks run past
    2^32 and on from address 0. *)
Fixpoint wtiles (a e : Z) (l : list snd_block_t) : Prop :=
  match l with
  | [] => a = e
  | b :: l' =>
      addr b = wrap32 a ∧
      (0 < size b ∨ (size b = 0 ∧ l' = [])) ∧
      wtiles (a + size b) e l'
  end.

(** * Tactics *)

(** Bounds on 32-bit values and on the constants of the pool. *)
Ltac range_lia := unfold uint32, capacity, best_size_limit in *; lia.

(** * The scenarios of the specification, run on the embedding *)

Example scenario_B :
  snd_mem_malloc true true 2097152
    (pool_of [mk_block 0 1024 true; mk_block 1024 2096128 false])
  = Returns (0, pool_of [mk_block 0 1024 true; mk_block 1024 2096128 false],
             [LogNoChunk 2097152]).
Proof. reflexivity. Qed.

Example scenario_C_alloc_twice :
  snd_mem_malloc true true 100 (pool_of [mk_block 32 2097120 false])
  = Returns (32, pool_of [mk_block 32 128 true; mk_block 160 2096992 false], [])
  ∧
  snd_mem_malloc true true 100
    (pool_of [mk_block 32 128 true; mk_block 160 2096992 false])
  = Returns (160, pool_of [mk_block 32 128 true; mk_block 160 128 true;
                           mk_block 288 2096864 false], []).
Proof. split; reflexivity. Qed.

Example scenario_C_free_in_order :
  snd_mem_free true 32
    (pool_of [mk_block 32 128 true; mk_block 160 128 true;
              mk_block 288 2096864 false])
  = Returns (pool_of [mk_block 32 128 false; mk_block 160 128 true;
                      mk_block 288 2096864 false], [])
  ∧
  snd_mem_free true 160
    (pool_of [mk_block 32 128 false; mk_block 160 128 true;
              mk_block 288 2096864 false])
  = Returns (pool_of [mk_block 32 2097120 false], []).
Proof. split; reflexivity. Qed.

Example scenario_C_free_in_reverse :
  snd_mem_free true 160
    (pool_of [mk_block 32 128 true; mk_block 160 128 true;
              mk_block 288 2096864 false])
  = Returns (pool_of [mk_block 32 128 true; mk_block 160 2096992 false], [])
  ∧
  snd_mem_free true 32
    (pool_of [mk_block 32 128 true; mk_block 160 2096992 false])
  = Returns (pool_of [mk_block 32 2097120 false], []).
Proof. split; reflexivity. Qed.

Example malloc_before_init :
  snd_mem_malloc true true 32 uninit = AssertFails.
Proof. reflexivity. Qed.

(** * Machine arithmetic *)

Lemma wrap32_small z : uint32 z → wrap32 z = z.
Proof. unfold uint32, wrap32. intros H. apply Z.mod_small. lia. Qed.

Lemma wrap32_uint32 z : uint32 (wrap32 z).
Proof. unfold uint32, wrap32. apply Z.mod_pos_bound. lia. Qed.

Lemma land_mask_floor y :
  uint32 y → Z.land y (wrap32 (Z.lnot 0x1f)) = 32 * (y / 32).
Proof.
  intros [Hlo Hhi].
  change (wrap32 (Z.lnot 0x1f)) with (Z.shiftl (Z.ones 27) 5).
  replace (32 * (y / 32)) with (Z.shiftl (Z.shiftr y 5) 5)
    by (rewrite Z.shiftl_mul_pow2, Z.shiftr_div_pow2 by lia;
        change (2 ^ 5) with 32; lia).
  apply Z.bits_inj'. intros k Hk.
  rewrite Z.land_spec.
  destruct (Z.lt_ge_cases k 5) as [Hk5 | Hk5].
  - rewrite !Z.shiftl_spec_low by lia. apply andb_false_r.
  - rewrite !Z.shiftl_spec by lia.
    rewrite Z.shiftr_spec by lia. replace (k - 5 + 5) with k by lia.
    rewrite Z.testbit_ones by lia.
    destruct (Z.lt_ge_cases k 32) as [Hk32 | Hk32].
    + replace (0 <=? k - 5) with true by (symmetry; apply Z.leb_le; lia).
      replace (k - 5 <? 27) with true by (symmetry; apply Z.ltb_lt; lia).
      apply andb_true_r.
    + replace (k - 5 <? 27) with false by (symmetry; apply Z.ltb_ge; lia).
      rewrite andb_false_r, andb_false_r. symmetry.
      destruct (Z.eq_dec y 0) as [-> | Hy]; [apply Z.testbit_0_l |].
      apply Z.bits_above_log2; [lia |].
      apply Z.lt_le_trans with 32; [| lia].
      apply Z.log2_lt_pow2; lia.
Qed.

Lemma align32_floor x :
  align32 x = 32 * (wrap32 (x + 31) / 32).
Proof. unfold align32. apply land_mask_floor, wrap32_uint32. Qed.

(** Below 2^32 - 31 the rounding does not wrap: it is the least multiple of 32
    that is not below [x]. *)
Lemma align32_round_up x :
  0 ≤ x ≤ 2 ^ 32 - 32 →
  x ≤ align32 x < x + 32 ∧ align32 x mod 32 = 0.
Proof.
  intros H. rewrite align32_floor, wrap32_small by (range_lia).
  split; [| rewrite Z.mul_comm; apply Z.mod_mul; lia].
  pose proof (Z.div_mod (x + 31) 32 ltac:(lia)).
  pose proof (Z.mod_pos_bound (x + 31) 32 ltac:(lia)). lia.
Qed.

(** From 2^32 - 31 on it wraps to 0. *)
Lemma align32_wraps x :
  2 ^ 32 - 31 ≤ x < 2 ^ 32 → align32 x = 0.
Proof.
  intros H. rewrite align32_floor. unfold wrap32.
  replace (x + 31) with ((x + 31 - 2 ^ 32) + 1 * 2 ^ 32) by lia.
  rewrite Z.mod_add by lia. rewrite Z.mod_small by lia.
  rewrite Z.div_small by lia. lia.
Qed.

Lemma align32_uint32 x : uint32 (align32 x).
Proof.
  rewrite align32_floor. pose proof (wrap32_uint32 (x + 31)) as [H1 H2].
  unfold uint32.
  pose proof (Z.div_mod (wrap32 (x + 31)) 32 ltac:(lia)).
  pose proof (Z.mod_pos_bound (wrap32 (x + 31)) 32 ltac:(lia)). lia.
Qed.

Lemma align32_mod x : align32 x mod 32 = 0.
Proof. rewrite align32_floor, Z.mul_comm. apply Z.mod_mul. lia. Qed.

Lemma align32_aligned x : uint32 x → x mod 32 = 0 → align32 x = x.
Proof.
  intros [H0 H1] Hm.
  assert (x ≤ 2 ^ 32 - 32).
  { pose proof (Z.div_mod x 32 ltac:(lia)). 
    assert (x / 32 < 2 ^ 27) by (apply Z.div_lt_upper_bound; lia). lia. }
  rewrite align32_floor, wrap32_small by (range_lia).
  pose proof (Z.div_mod x 32 ltac:(lia)).
  replace (x + 31) with (31 + (x / 32) * 32) by lia.
  rewrite Z.div_add by lia. rewrite (Z.div_small 31 32) by lia. lia.
Qed.

(** * The search loop of snd_mem_malloc *)

Lemma scan_best_snoc sz l e :
  scan_best sz (l ++ [e]) = scan_step sz (scan_best sz l) e.
Proof. unfold scan_best. by rewrite fold_left_app. Qed.

Lemma scan_cond_true sz bs e :
  (sz <=? size e) && (size e <? bs) && negb (inuse e) = true ↔
  sz ≤ size e ∧ size e < bs ∧ inuse e = false.
Proof.
  rewrite !andb_true_iff, Z.leb_le, Z.ltb_lt, negb_true_iff. tauto.
Qed.

Lemma lookup_snoc_inv (l : list snd_block_t) x j c :
  (l ++ [x]) !! j = Some c →
  l !! j = Some c ∨ (j = length l ∧ c = x).
Proof.
  intros H. apply lookup_app_Some in H as [H | [Hle H]]; [by left | right].
  destruct (j - length l)%nat as [| k] eqn:Hk; simpl in H; [| done].
  split; [lia | congruence].
Qed.

(** The loop invariant: after the blocks of [l], [best] is the best fit among
    them and [best_size] its size. *)
Lemma scan_best_inv sz l : scan_inv sz l (scan_best sz l).
Proof.
  induction l as [| x l IH] using rev_ind.
  - cbn. split; [done |]. split; [done |]. intros e He. by apply elem_of_nil in He.
  - rewrite scan_best_snoc.
    destruct (scan_best sz l) as [[i best] bs]. destruct IH as [Hi Hb].
    unfold scan_step.
    destruct ((sz <=? size x) && (size x <? bs) && negb (inuse x)) eqn:Hc.
    + apply scan_cond_true in Hc as (Hsz & Hbs & Hfree).
      assert (bs ≤ best_size_limit) as Hlim.
      { destruct best as [[j b] |]; [| lia].
        destruct Hb as (-> & _ & (_ & _ & ?) & _). lia. }
      split; [rewrite length_app; simpl; lia |]. split; [done |].
      subst i. split; [apply list_lookup_middle; done |].
      split; [unfold candidate; split_and!; [done | lia | lia] |].
      intros j c Hj Hcand. apply lookup_snoc_inv in Hj as [Hj | [-> ->]]; [| lia].
      destruct best as [[j0 b] |].
      * destruct Hb as (-> & _ & _ & Hmin).
        destruct (Hmin j c Hj Hcand). lia.
      * destruct Hb as [_ Hnone]. exfalso.
        apply (Hnone c); [by eapply list_elem_of_lookup_2 | done].
    + assert (¬ (sz ≤ size x ∧ size x < bs ∧ inuse x = false)) as Hn.
      { rewrite <- scan_cond_true. by rewrite Hc. }
      split; [rewrite length_app; simpl; lia |].
      destruct best as [[j b] |].
      * destruct Hb as (-> & Hl & Hcb & Hmin). split; [done |].
        split; [by apply lookup_app_l_Some |]. split; [done |].
        intros j' c Hj Hcand. apply lookup_snoc_inv in Hj as [Hj | [-> ->]].
        -- by apply Hmin.
        -- apply lookup_lt_Some in Hl. destruct Hcand as (? & ? & ?).
           assert (¬ size x < size b) by (intros ?; apply Hn; done). lia.
      * destruct Hb as [-> Hnone]. split; [done |].
        intros e He Hcand. apply elem_of_app in He as [He | He].
        -- by apply (Hnone e).
        -- apply list_elem_of_singleton in He as ->.
           destruct Hcand as (? & ? & ?). apply Hn. done.
Qed.

Lemma best_fit_unique cand l i b i' b' :
  best_fit cand l i b → best_fit cand l i' b' → i = i' ∧ b = b'.
Proof.
  intros (Hl & Hc & Hmin) (Hl' & Hc' & Hmin').
  destruct (Hmin _ _ Hl' Hc') as [H1 H2], (Hmin' _ _ Hl Hc) as [H3 H4].
  assert (i = i') as -> by lia. split; [done | congruence].
Qed.

Lemma find_best_None sz l :
  find_best sz l = None ↔ ∀ e, e ∈ l → ¬ candidate sz e.
Proof.
  pose proof (scan_best_inv sz l) as H. unfold find_best.
  destruct (scan_best sz l) as [[i best] bs]. simpl.
  destruct H as [_ H]. destruct best as [[j b] |].
  - split; [done |]. intros Hnone. destruct H as (_ & Hl & Hc & _).
    exfalso. apply (Hnone b); [by eapply list_elem_of_lookup_2 | done].
  - split; [| done]. intros _. apply H.
Qed.

Lemma find_best_Some sz l i b :
  find_best sz l = Some (i, b) ↔ best_fit (candidate sz) l i b.
Proof.
  pose proof (scan_best_inv sz l) as H.
  pose proof (find_best_None sz l) as HN. unfold find_best in *.
  destruct (scan_best sz l) as [[k best] bs]. simpl in *.
  destruct H as [_ H]. destruct best as [[j b'] |].
  - destruct H as [_ H]. split.
    + intros [= -> ->]. done.
    + intros H'. destruct (best_fit_unique _ _ _ _ _ _ H H') as [-> ->]. done.
  - split; [done |]. intros (Hl & Hc & _). exfalso.
    apply (proj1 HN eq_refl b); [by eapply list_elem_of_lookup_2 | done].
Qed.

(** * Queue operations on a pool split around a block *)

Lemma snoc_case {A} (l : list A) : l = [] ∨ ∃ l' x, l = l' ++ [x].
Proof. induction l using rev_ind; [by left | right; eauto]. Qed.

Lemma insert_at_middle (pre suf : list snd_block_t) x y :
  <[length pre := y]> (pre ++ x :: suf) = pre ++ y :: suf.
Proof. induction pre as [| z pre IH]; simpl; [done | by rewrite IH]. Qed.

Lemma insert_after_middle (pre suf : list snd_block_t) x e :
  insert_after (length pre) e (pre ++ x :: suf) = pre ++ x :: e :: suf.
Proof.
  unfold insert_after.
  induction pre as [| z pre IH]; simpl.
  - done.
  - simpl in IH. by rewrite IH.
Qed.

Lemma split_at_middle (pre suf : list snd_block_t) b sz :
  split_at (length pre) b sz (pre ++ b :: suf)
  = pre ++ mk_block (addr b) sz true
        :: mk_block (wrap32 (addr b + sz)) (wrap32 (size b - sz)) false :: suf.
Proof.
  unfold split_at. rewrite take_app_length.
  replace (pre ++ b :: suf) with ((pre ++ [b]) ++ suf) by (by rewrite <- app_assoc).
  replace (S (length pre)) with (length (pre ++ [b]))
    by (rewrite length_app; simpl; lia).
  by rewrite drop_app_length.
Qed.

Lemma coalesce_prev_shift x i l :
  coalesce_prev (S (S i)) (x :: l)
  = (S (fst (coalesce_prev (S i) l)), x :: snd (coalesce_prev (S i) l)).
Proof.
  unfold coalesce_prev. simpl.
  destruct (l !! i) as [o |]; [| done].
  destruct (l !! S i) as [e |]; [| done].
  by destruct (negb (inuse o)).
Qed.

Lemma coalesce_prev_snoc (pre suf : list snd_block_t) o e :
  coalesce_prev (S (length pre)) (pre ++ o :: e :: suf)
  = if inuse o
    then (S (length pre), pre ++ o :: e :: suf)
    else (length pre, pre ++ set_size (wrap32 (size o + size e)) o :: suf).
Proof.
  induction pre as [| z pre IH].
  - unfold coalesce_prev. simpl. by destruct (inuse o).
  - simpl length. rewrite <- !app_comm_cons, coalesce_prev_shift, IH.
    by destruct (inuse o).
Qed.

Lemma coalesce_next_shift x i l :
  coalesce_next (S i) (x :: l) = x :: coalesce_next i l.
Proof.
  unfold coalesce_next. simpl.
  destruct (l !! i) as [e |]; [| done].
  destruct (l !! S i) as [o |]; [| done].
  by destruct (negb (inuse o)).
Qed.

Lemma coalesce_next_cons (pre suf : list snd_block_t) e o :
  coalesce_next (length pre) (pre ++ e :: o :: suf)
  = if inuse o
    then pre ++ e :: o :: suf
    else pre ++ set_size (wrap32 (size e + size o)) e :: suf.
Proof.
  induction pre as [| z pre IH].
  - unfold coalesce_next. simpl. by destruct (inuse o).
  - simpl length. rewrite <- !app_comm_cons, coalesce_next_shift, IH.
    by destruct (inuse o).
Qed.

Lemma coalesce_next_last (pre : list snd_block_t) e :
  coalesce_next (length pre) (pre ++ [e]) = pre ++ [e].
Proof.
  induction pre as [| z pre IH]; [done |].
  simpl length. by rewrite <- !app_comm_cons, coalesce_next_shift, IH.
Qed.

Lemma list_find_addr_middle (pre suf : list snd_block_t) e a :
  Forall (λ c, addr c ≠ a) pre → addr e = a →
  list_find (λ c, addr c = a) (pre ++ e :: suf) = Some (length pre, e).
Proof.
  intros Hpre He. apply list_find_Some. split; [by apply list_lookup_middle |].
  split; [done |]. intros j c Hj Hlt.
  rewrite lookup_app_l in Hj by done.
  rewrite Forall_forall in Hpre. apply Hpre. by eapply list_elem_of_lookup_2.
Qed.

Lemma list_find_addr_split (l : list snd_block_t) a i e :
  list_find (λ c, addr c = a) l = Some (i, e) →
  ∃ pre suf, l = pre ++ e :: suf ∧ i = length pre ∧
             Forall (λ c, addr c ≠ a) pre ∧ addr e = a.
Proof.
  intros H. apply list_find_Some in H as (Hl & He & Hbefore).
  apply list_elem_of_split_length in Hl as (pre & suf & -> & ->).
  exists pre, suf. split_and!; [done | done | | done].
  apply Forall_forall. intros c Hc.
  apply list_elem_of_lookup_1 in Hc as [j Hj].
  apply (Hbefore j); [| by eapply lookup_lt_Some].
  rewrite lookup_app_l; [done | by eapply lookup_lt_Some].
Qed.

(** ** What snd_mem_free does to the queue *)

Lemma coalesce_prev_merged pre e suf :
  ∃ pre1 cur,
    merged_prev pre e pre1 cur ∧
    coalesce_prev (length pre) (pre ++ e :: suf)
    = (length pre1, pre1 ++ cur :: suf).
Proof.
  destruct (snoc_case pre) as [-> | (pre' & o & ->)].
  - exists [], e. split; [constructor | done].
  - assert (length (pre' ++ [o]) = S (length pre')) as Hlen
      by (rewrite length_app; simpl; lia).
    assert (∀ k : list snd_block_t, (pre' ++ [o]) ++ k = pre' ++ o :: k)
      as Happ by (intros k; by rewrite <- app_assoc).
    rewrite Hlen, Happ, coalesce_prev_snoc.
    destruct (inuse o) eqn:Ho.
    + exists (pre' ++ [o]), e.
      split; [by constructor |]. by rewrite Hlen, Happ.
    + eexists pre', _. split; [by constructor | done].
Qed.

Lemma coalesce_next_merged pre cur suf :
  ∃ cur' suf',
    merged_next cur suf cur' suf' ∧
    coalesce_next (length pre) (pre ++ cur :: suf) = pre ++ cur' :: suf'.
Proof.
  destruct suf as [| o suf].
  - exists cur, []. split; [constructor | apply coalesce_next_last].
  - rewrite coalesce_next_cons. destruct (inuse o) eqn:Ho.
    + exists cur, (o :: suf). split; [by constructor | done].
    + eexists _, suf. split; [by constructor | done].
Qed.

(** [snd_mem_free] on the address of the block [e], the first block of the
    queue with that address. *)
Lemma snd_mem_free_found a s pre e suf :
  initted s = true → a ≠ 0 →
  pool s = pre ++ e :: suf → Forall (λ c, addr c ≠ a) pre → addr e = a →
  ∃ pre1 cur cur' suf',
    merged_prev pre (set_inuse false e) pre1 cur ∧
    merged_next cur suf cur' suf' ∧
    snd_mem_free true a s
    = Returns ({| initted := true; pool := pre1 ++ cur' :: suf' |}, []).
Proof.
  intros Hi Ha Hp Hpre He. unfold snd_mem_free. rewrite Hi. simpl.
  apply Z.eqb_neq in Ha. rewrite Ha, Hp.
  rewrite (list_find_addr_middle pre suf e a Hpre He), insert_at_middle.
  destruct (coalesce_prev_merged pre (set_inuse false e) suf)
    as (pre1 & cur & Hmp & ->).
  destruct (coalesce_next_merged pre1 cur suf) as (cur' & suf' & Hmn & ->).
  exists pre1, cur, cur', suf'. done.
Qed.

Lemma snd_mem_free_result lk a s s' ev :
  snd_mem_free lk a s = Returns (s', ev) →
  (s' = s ∧ ev = [] ∧ (a = 0 ∨ lk = false)) ∨
  (s' = s ∧ ev = [LogFreeNonExistent 0] ∧ a ≠ 0 ∧ lk = true ∧
   Forall (λ c, addr c ≠ a) (pool s)) ∨
  ∃ pre e suf pre1 cur cur' suf',
    a ≠ 0 ∧ lk = true ∧ ev = [] ∧
    pool s = pre ++ e :: suf ∧ Forall (λ c, addr c ≠ a) pre ∧ addr e = a ∧
    merged_prev pre (set_inuse false e) pre1 cur ∧
    merged_next cur suf cur' suf' ∧
    initted s' = initted s ∧ pool s' = pre1 ++ cur' :: suf'.
Proof.
  intros H.
  destruct (initted s) eqn:Hi; [| unfold snd_mem_free in H; by rewrite Hi in H].
  destruct (Z.eq_dec a 0) as [-> | Ha].
  { left. unfold snd_mem_free in H. rewrite Hi in H. simpl in H.
    injection H as <- <-. auto. }
  destruct lk.
  2:{ left. unfold snd_mem_free in H. rewrite Hi in H. simpl in H.
      destruct (a =? 0); injection H as <- <-; auto. }
  right.
  destruct (list_find (λ c, addr c = a) (pool s)) as [[i e] |] eqn:Hf.
  - right. apply list_find_addr_split in Hf as (pre & suf & Hp & -> & Hpre & He).
    destruct (snd_mem_free_found a s pre e suf Hi Ha Hp Hpre He)
      as (pre1 & cur & cur' & suf' & Hmp & Hmn & Hfree).
    rewrite Hfree in H. injection H as <- <-.
    exists pre, e, suf, pre1, cur, cur', suf'. split_and!; done.
  - left. unfold snd_mem_free in H. rewrite Hi, Hf in H. simpl in H.
    apply Z.eqb_neq in Ha as Ha'. rewrite Ha' in H.
    injection H as <- <-. split_and!; try done.
    by apply list_find_None in Hf.
Qed.

(** The cases of a call of [snd_mem_free] that returned: the pool is as it
    was, or the block [e] between [pre] and [suf] was freed and coalesced. *)
Ltac free_cases H pre e suf pre1 cur cur' suf' Hp Hmp Hmn :=
  apply snd_mem_free_result in H
    as [(-> & _) | [(-> & _) |
        (pre & e & suf & pre1 & cur & cur' & suf' & _ & _ & _ & Hp & _ & _
         & Hmp & Hmn & _ & ->)]]; [done | done |].

(** ** What snd_mem_malloc does to the queue *)

Lemma find_best_split sz l i b :
  find_best sz l = Some (i, b) →
  ∃ pre suf, l = pre ++ b :: suf ∧ i = length pre ∧ candidate sz b.
Proof.
  intros H. apply find_best_Some in H as (Hl & Hc & _).
  apply list_elem_of_split_length in Hl as (pre & suf & -> & ->). eauto.
Qed.

Lemma snd_mem_malloc_result lk m sz s p s' ev :
  snd_mem_malloc lk m sz s = Returns (p, s', ev) →
  (s' = s ∧ p = 0) ∨
  ∃ pre b suf,
    sz ≠ 0 ∧ lk = true ∧ ev = [] ∧
    find_best (align32 sz) (pool s) = Some (length pre, b) ∧
    pool s = pre ++ b :: suf ∧ candidate (align32 sz) b ∧
    p = addr b ∧ initted s' = initted s ∧
    ((size b = align32 sz ∧ pool s' = pre ++ set_inuse true b :: suf) ∨
     (size b ≠ align32 sz ∧ m = true ∧
      pool s' = pre ++ mk_block (addr b) (align32 sz) true
                    :: mk_block (wrap32 (addr b + align32 sz))
                                (wrap32 (size b - align32 sz)) false
                    :: suf)).
Proof.
  unfold snd_mem_malloc. intros H.
  destruct (initted s) eqn:Hi; simpl in H; [| done].
  destruct (sz =? 0) eqn:Hz; [left; by injection H as <- <- <- |].
  destruct lk; simpl in H; [| left; by injection H as <- <- <-].
  destruct (find_best (align32 sz) (pool s)) as [[i b] |] eqn:Hf;
    [| left; by injection H as <- <- <-].
  pose proof Hf as Hf'.
  apply find_best_split in Hf' as (pre & suf & Hp & -> & Hc).
  destruct (size b =? align32 sz) eqn:Hsz.
  - right. injection H as <- <- <-. exists pre, b, suf.
    apply Z.eqb_eq in Hsz. apply Z.eqb_neq in Hz.
    split_and!; try done. left. split; [done |]. simpl.
    by rewrite Hp, insert_at_middle.
  - destruct m; simpl in H; [| left; by injection H as <- <- <-].
    right. injection H as <- <- <-. exists pre, b, suf.
    apply Z.eqb_neq in Hsz. apply Z.eqb_neq in Hz.
    split_and!; try done. right. split_and!; [done | done |]. simpl.
    by rewrite Hp, insert_after_middle, insert_at_middle.
Qed.

(** On an initialised pool [snd_mem_free] and [snd_mem_malloc] always
    return. *)
Lemma snd_mem_free_returns lk a s :
  initted s = true → ∃ s' ev, snd_mem_free lk a s = Returns (s', ev).
Proof.
  intros Hi. unfold snd_mem_free. rewrite Hi. simpl.
  destruct (a =? 0); [eauto |]. destruct lk; simpl; [| eauto].
  destruct (list_find _ (pool s)) as [[i e] |]; [| eauto].
  destruct (coalesce_prev i _) as [k l]. eauto.
Qed.

Lemma snd_mem_malloc_returns lk m sz s :
  initted s = true → ∃ p s' ev, snd_mem_malloc lk m sz s = Returns (p, s', ev).
Proof.
  intros Hi. unfold snd_mem_malloc. rewrite Hi. simpl.
  destruct (sz =? 0); [eauto |]. destruct lk; simpl; [| eauto].
  destruct (find_best _ _) as [[i b] |]; [| eauto].
  destruct (size b =? _); [eauto |]. destruct m; simpl; eauto.
Qed.

Lemma merged_prev_facts pre e pre1 cur :
  merged_prev pre e pre1 cur →
  inuse e = false →
  inuse cur = false ∧ ∃ k, pre = pre1 ++ k.
Proof.
  intros H He. destruct H.
  - split; [done | by exists []].
  - split; [done | exists []; by rewrite app_nil_r].
  - split; [done | by exists [o]].
Qed.

Lemma merged_next_facts cur suf cur' suf' :
  merged_next cur suf cur' suf' →
  inuse cur' = inuse cur ∧ addr cur' = addr cur ∧ ∃ k, suf = k ++ suf'.
Proof.
  intros H. destruct H.
  - split_and!; [done | done | by exists []].
  - split_and!; [done | done | by exists []].
  - split_and!; [done | done | by exists [o]].
Qed.

(** * No two adjacent free blocks *)

Lemma naf_cons_inv e l : no_adjacent_free (e :: l) → no_adjacent_free l.
Proof. destruct l; simpl; tauto. Qed.

Lemma naf_cons2 e1 e2 l :
  no_adjacent_free (e1 :: e2 :: l) ↔
  (inuse e1 = true ∨ inuse e2 = true) ∧ no_adjacent_free (e2 :: l).
Proof. done. Qed.

Lemma naf_app_inv l1 l2 :
  no_adjacent_free (l1 ++ l2) → no_adjacent_free l1 ∧ no_adjacent_free l2.
Proof.
  induction l1 as [| e l1 IH]; [simpl; tauto |].
  destruct l1 as [| e2 l1].
  - simpl. intros H. split; [done | by eapply naf_cons_inv].
  - simpl in *. tauto.
Qed.

Lemma naf_middle pre e suf :
  no_adjacent_free (pre ++ e :: suf) ↔
  no_adjacent_free (pre ++ [e]) ∧ no_adjacent_free (e :: suf).
Proof.
  induction pre as [| z pre IH]; [simpl; tauto |].
  destruct pre as [| z2 pre]; simpl in *; tauto.
Qed.

Lemma naf_snoc_flag pre e e' :
  no_adjacent_free (pre ++ [e]) →
  (inuse e = true → inuse e' = true) →
  no_adjacent_free (pre ++ [e']).
Proof.
  induction pre as [| z pre IH]; [done |].
  destruct pre as [| z2 pre]; simpl in *; tauto.
Qed.

Lemma naf_head_flag e e' suf :
  no_adjacent_free (e :: suf) →
  (inuse e = true → inuse e' = true) →
  no_adjacent_free (e' :: suf).
Proof. destruct suf; simpl; tauto. Qed.

Lemma naf_snoc2 pre o e :
  no_adjacent_free (pre ++ [o; e]) ↔
  no_adjacent_free (pre ++ [o]) ∧ (inuse o = true ∨ inuse e = true).
Proof. rewrite naf_middle. simpl. tauto. Qed.

(** The pool before the call has no two adjacent free blocks: neither has the
    pool after [snd_mem_free]. *)
Lemma snd_mem_free_naf lk a s s' ev :
  no_adjacent_free (pool s) →
  snd_mem_free lk a s = Returns (s', ev) →
  no_adjacent_free (pool s').
Proof.
  intros Hnaf H.
  free_cases H pre e suf pre1 cur cur' suf' Hp Hmp Hmn.
  rewrite Hp in Hnaf. apply naf_middle in Hnaf as [Hpre Hsuf].
  assert (no_adjacent_free (pre1 ++ [cur]) ∧ inuse cur = false) as [HA Hcur].
  { inversion Hmp; subst.
    - done.
    - split; [| done]. rewrite <- app_assoc. apply naf_snoc2.
      split; [| by left]. by apply naf_app_inv in Hpre as [? _].
    - split; [| done]. apply naf_app_inv in Hpre as [Hpre _].
      eapply naf_snoc_flag; [exact Hpre | done]. }
  apply naf_middle. inversion Hmn; subst.
  - done.
  - split; [done |]. apply naf_cons2.
    split; [by right | by eapply naf_cons_inv].
  - split; [eapply naf_snoc_flag; [exact HA | done] |].
    apply naf_cons_inv in Hsuf. eapply naf_head_flag; [exact Hsuf |].
    intros Ho. congruence.
Qed.

Lemma snd_mem_malloc_naf lk m sz s p s' ev :
  no_adjacent_free (pool s) →
  snd_mem_malloc lk m sz s = Returns (p, s', ev) →
  no_adjacent_free (pool s').
Proof.
  intros Hnaf H.
  apply snd_mem_malloc_result in H
    as [(-> & _) |
        (pre & b & suf & _ & _ & _ & _ & Hp & (Hfree & _) & _ & _ & Hs')];
    [done |].
  rewrite Hp in Hnaf. apply naf_middle in Hnaf as [Hpre Hsuf].
  destruct Hs' as [(_ & ->) | (_ & _ & ->)]; apply naf_middle.
  - split; [eapply naf_snoc_flag | eapply naf_head_flag]; eauto.
  - split; [eapply naf_snoc_flag; eauto |].
    apply naf_cons2. split; [by left |].
    eapply naf_head_flag; [exact Hsuf |].
    intros Hb. congruence.
Qed.

Lemma snd_mem_init_result sd lk m reserve s0 s ev :
  snd_mem_init sd lk m reserve s0 = (0, s, ev) →
  s = {| initted := true;
         pool := [mk_block (align32 reserve)
                           (wrap32 (capacity - align32 reserve)) false] |}
  ∧ ev = [] ∧ lk = true ∧ m = true.
Proof.
  unfold snd_mem_init. intros H.
  destruct lk; simpl in H; [| by injection H].
  destruct m; simpl in H; [| by injection H].
  by injection H as <- <-.
Qed.

Lemma snd_mem_available_state lk s v ev v' ev' :
  snd_mem_available lk s = (v, ev) → snd_mem_available lk s = (v', ev') →
  v = v' ∧ ev = ev'.
Proof. intros H1 H2. rewrite H1 in H2. by injection H2. Qed.

(** Every reachable pool is initialised and has no two adjacent free
    blocks. *)
Lemma reachable_within_naf rmax smax r h s :
  reachable_within rmax smax r h s →
  initted s = true ∧ no_adjacent_free (pool s).
Proof.
  induction 1 as [sd lk m reserve s0 s ev _ _ Hinit
                 | r h s lk m sz p s' ev _ [Hi IH] _ _ Hm
                 | r h s lk a s' ev _ [Hi IH] _ Hf
                 | r h s lk v ev _ IH _].
  - apply snd_mem_init_result in Hinit as (-> & _). done.
  - split; [| by eapply snd_mem_malloc_naf].
    apply snd_mem_malloc_result in Hm
      as [(-> & _) | (? & ? & ? & _ & _ & _ & _ & _ & _ & _ & -> & _)]; done.
  - split; [| by eapply snd_mem_free_naf].
    apply snd_mem_free_result in Hf
      as [(-> & _) | [(-> & _) |
          (? & ? & ? & ? & ? & ? & ? & _ & _ & _ & _ & _ & _ & _ & _ & -> & _)]];
      done.
  - done.
Qed.

(** * In-use blocks carry returned addresses *)

Lemma inuse_returned_weaken p h l :
  inuse_returned h l → inuse_returned (p :: h) l.
Proof.
  unfold inuse_returned. intros H. eapply Forall_impl; [exact H |].
  intros b Hb Hu. apply elem_of_cons. right. auto.
Qed.

Lemma snd_mem_malloc_inuse_returned lk m sz s p s' ev h :
  inuse_returned h (pool s) →
  snd_mem_malloc lk m sz s = Returns (p, s', ev) →
  inuse_returned (p :: h) (pool s').
Proof.
  intros Hinv H. apply (inuse_returned_weaken p) in Hinv.
  apply snd_mem_malloc_result in H
    as [(-> & _) |
        (pre & b & suf & _ & _ & _ & _ & Hp & _ & -> & _ & Hs')];
    [done |].
  rewrite Hp in Hinv. unfold inuse_returned in *.
  apply Forall_app in Hinv as [Hpre Hsuf].
  apply Forall_cons in Hsuf as [_ Hsuf].
  destruct Hs' as [(_ & ->) | (_ & _ & ->)].
  - apply Forall_app. split; [done |]. apply Forall_cons. split; [| done].
    intros _. apply elem_of_cons. by left.
  - apply Forall_app. split; [done |]. apply Forall_cons. split.
    { intros _. apply elem_of_cons. by left. }
    apply Forall_cons. split; [done | done].
Qed.

Lemma snd_mem_free_inuse_returned lk a s s' ev h :
  inuse_returned h (pool s) →
  snd_mem_free lk a s = Returns (s', ev) →
  inuse_returned h (pool s').
Proof.
  intros Hinv H.
  free_cases H pre e suf pre1 cur cur' suf' Hp Hmp Hmn.
  rewrite Hp in Hinv. unfold inuse_returned in *.
  apply Forall_app in Hinv as [Hpre Hsuf].
  apply Forall_cons in Hsuf as [_ Hsuf].
  apply merged_prev_facts in Hmp as (Hcur & k & ->); [| done].
  apply merged_next_facts in Hmn as (Hcur' & _ & k' & ->).
  apply Forall_app in Hpre as [Hpre _]. apply Forall_app in Hsuf as [_ Hsuf].
  apply Forall_app. split; [done |]. apply Forall_cons. split; [| done].
  intros Hu. congruence.
Qed.

Lemma reachable_within_inuse_returned rmax smax r h s :
  reachable_within rmax smax r h s → inuse_returned h (pool s).
Proof.
  induction 1 as [sd lk m reserve s0 s ev _ _ Hinit
                 | r h s lk m sz p s' ev _ IH _ _ Hm
                 | r h s lk a s' ev _ IH _ Hf
                 | r h s lk v ev _ IH _].
  - apply snd_mem_init_result in Hinit as (-> & _).
    apply Forall_cons. split; [done | constructor].
  - by eapply snd_mem_malloc_inuse_returned.
  - by eapply snd_mem_free_inuse_returned.
  - done.
Qed.

Lemma set_inuse_same b : set_inuse (inuse b) b = b.
Proof. by destruct b. Qed.

(** Next to a free block of a pool without adjacent free blocks there is
    nothing to coalesce with. *)
Lemma merged_prev_of_free pre b e pre1 cur :
  no_adjacent_free (pre ++ [b]) → inuse b = false →
  merged_prev pre e pre1 cur → pre1 = pre ∧ cur = e.
Proof.
  intros Hnaf Hb Hmp. inversion Hmp; subst; [done | done |].
  rewrite <- app_assoc in Hnaf. apply naf_snoc2 in Hnaf as [_ [? | ?]];
    congruence.
Qed.

Lemma merged_next_of_free b suf e cur' suf' :
  no_adjacent_free (b :: suf) → inuse b = false →
  merged_next e suf cur' suf' → cur' = e ∧ suf' = suf.
Proof.
  intros Hnaf Hb Hmn. inversion Hmn; subst; [done | done |].
  apply naf_cons2 in Hnaf as [[? | ?] _]; congruence.
Qed.

(** * The ledger of a pool used within its range *)

Lemma tiles_le a l : tiles a l → a ≤ capacity.
Proof.
  revert a. induction l as [| b l IH]; intros a; simpl; [lia |].
  intros (_ & _ & _ & Hpos & Ht). apply IH in Ht. lia.
Qed.

Lemma tiles_total a l : tiles a l → total_size l = capacity - a.
Proof.
  revert a. induction l as [| b l IH]; intros a; simpl; [lia |].
  intros (_ & _ & _ & _ & Ht). apply IH in Ht. lia.
Qed.

Lemma tiles_alignment a l : tiles a l → Alignment l.
Proof.
  revert a. induction l as [| b l IH]; intros a; simpl; [constructor |].
  intros (Ha & ? & ? & _ & Ht). constructor; [by rewrite Ha | by eapply IH].
Qed.

Lemma tiles_coverage a l : tiles a l → Coverage l.
Proof.
  revert a. induction l as [| b l IH]; intros a; [done |].
  destruct l as [| b2 l]; [done |].
  intros (Ha & _ & _ & Hpos & Ht). pose proof Ht as (Hb2 & _).
  split_and!; [| lia | by eapply IH].
  destruct Hpos as [? | [_ ?]]; [lia | done].
Qed.

(** Where a block of a tiling lies. *)
Lemma tiles_middle a pre b suf :
  tiles a (pre ++ b :: suf) →
  a ≤ addr b ∧ 0 ≤ size b ∧ addr b + size b ≤ capacity ∧
  addr b mod 32 = 0 ∧ size b mod 32 = 0 ∧
  Forall (λ c, addr c < addr b) pre.
Proof.
  revert a. induction pre as [| z pre IH]; intros a.
  - simpl. intros (-> & ? & ? & Hpos & Ht). apply tiles_le in Ht.
    split_and!; [lia | lia | lia | done | done | constructor].
  - simpl. intros (Hz & ? & ? & Hpos & Ht).
    destruct Hpos as [Hpos | [_ Hnil]]; [| by destruct pre].
    apply IH in Ht as (? & ? & ? & ? & ? & Hall).
    split_and!; [lia | lia | lia | done | done |].
    constructor; [lia | done].
Qed.

Lemma tiles_set_inuse a pre b suf u :
  tiles a (pre ++ b :: suf) → tiles a (pre ++ set_inuse u b :: suf).
Proof.
  revert a. induction pre as [| z pre IH]; intros a; [done |].
  simpl. intros (? & ? & ? & Hpos & Ht). split_and!; [done | done | done | |].
  - destruct Hpos as [? | [_ ?]]; [by left | by destruct pre].
  - by apply IH.
Qed.

Lemma mod32_add x y : x mod 32 = 0 → y mod 32 = 0 → (x + y) mod 32 = 0.
Proof. intros Hx Hy. by rewrite Zplus_mod, Hx, Hy. Qed.

Lemma mod32_sub x y : x mod 32 = 0 → y mod 32 = 0 → (x - y) mod 32 = 0.
Proof. intros Hx Hy. by rewrite Zminus_mod, Hx, Hy. Qed.

Lemma tiles_split a pre b suf n u v :
  tiles a (pre ++ b :: suf) →
  0 < n < size b → n mod 32 = 0 →
  tiles a (pre ++ mk_block (addr b) n u
               :: mk_block (addr b + n) (size b - n) v :: suf).
Proof.
  intros Ht Hn Hm. revert a Ht.
  induction pre as [| z pre IH]; intros a.
  - simpl. intros (Ha & Ha32 & Hs32 & Hpos & Ht).
    split_and!; simpl; try done; try lia; try (left; lia).
    + by apply mod32_add.
    + by apply mod32_sub.
    + by replace (a + n + (size b - n)) with (a + size b) by lia.
  - simpl. intros (? & ? & ? & Hpos & Ht). split_and!; [done | done | done | |].
    + destruct Hpos as [? | [_ ?]]; [by left | by destruct pre].
    + by apply IH.
Qed.

Lemma tiles_merge a pre b1 b2 suf u :
  tiles a (pre ++ b1 :: b2 :: suf) →
  tiles a (pre ++ mk_block (addr b1) (size b1 + size b2) u :: suf).
Proof.
  revert a. induction pre as [| z pre IH]; intros a.
  - simpl. intros (Ha & ? & ? & Hpos & _ & _ & ? & Hpos2 & Ht).
    split_and!; simpl; try done.
    + by apply mod32_add.
    + destruct Hpos as [? | [_ ?]]; [| done].
      destruct Hpos2 as [? | [? ->]]; [left; lia | left; lia].
    + by rewrite Z.add_assoc.
  - simpl. intros (? & ? & ? & Hpos & Ht). split_and!; [done | done | done | |].
    + destruct Hpos as [? | [_ ?]]; [by left | by destruct pre].
    + by apply IH.
Qed.

(** The sum that coalescing stores does not wrap. *)
Lemma tiles_merge_wrap a pre b1 b2 suf :
  0 ≤ a → tiles a (pre ++ b1 :: b2 :: suf) →
  tiles a (pre ++ set_size (wrap32 (size b1 + size b2)) b1 :: suf).
Proof.
  intros Ha Ht. apply (tiles_merge _ _ _ _ _ (inuse b1)) in Ht.
  pose proof (tiles_middle _ _ _ _ Ht) as (? & ? & ? & _). simpl in *.
  unfold set_size. rewrite wrap32_small; [done |].
  unfold uint32, capacity in *. lia.
Qed.

Lemma snd_mem_free_tiles r lk a s s' ev :
  0 ≤ r → tiles r (pool s) →
  snd_mem_free lk a s = Returns (s', ev) →
  tiles r (pool s').
Proof.
  intros Hr Ht H.
  free_cases H pre e suf pre1 cur cur' suf' Hp Hmp Hmn.
  rewrite Hp in Ht. apply (tiles_set_inuse _ _ _ _ false) in Ht.
  assert (tiles r (pre1 ++ cur :: suf)) as Ht1.
  { inversion Hmp; subst; [done | done |].
    rewrite <- app_assoc in Ht. by apply tiles_merge_wrap. }
  inversion Hmn; subst; [done | done |]. by apply tiles_merge_wrap.
Qed.

Lemma snd_mem_malloc_tiles r lk m sz s p s' ev :
  0 ≤ r → tiles r (pool s) →
  uint32 sz → sz ≤ 2 ^ 32 - 32 →
  snd_mem_malloc lk m sz s = Returns (p, s', ev) →
  tiles r (pool s').
Proof.
  intros Hr Ht Hsz Hmax H.
  apply snd_mem_malloc_result in H
    as [(-> & _) |
        (pre & b & suf & Hnz & _ & _ & _ & Hp & (_ & Hge & _) & _ & _ & Hs')];
    [done |].
  rewrite Hp in Ht.
  destruct Hs' as [(_ & ->) | (Hne & _ & ->)]; [by apply tiles_set_inuse |].
  destruct (align32_round_up sz) as [[Hlo Hhi] Hmod];
    [range_lia |].
  pose proof (tiles_middle _ _ _ _ Ht) as (? & ? & ? & _).
  rewrite !wrap32_small by (range_lia).
  apply tiles_split; [done | range_lia | done].
Qed.

Lemma capacity_mod32 : capacity mod 32 = 0.
Proof. reflexivity. Qed.

(** The invariant of a pool used within its range. *)
Lemma reachable_in_range_tiles r h s :
  reachable_in_range r h s → 0 ≤ r ∧ tiles r (pool s).
Proof.
  induction 1 as [sd lk m reserve s0 s ev Hres Hmax Hinit
                 | r h s lk m sz p s' ev _ [Hr IH] Hsz Hmax Hm
                 | r h s lk a s' ev _ [Hr IH] _ Hf
                 | r h s lk v ev _ IH _].
  - apply snd_mem_init_result in Hinit as (-> & _).
    pose proof (align32_uint32 reserve) as [H0 _]. split; [done |]. simpl.
    rewrite wrap32_small by (range_lia).
    split_and!; try done.
    + apply align32_mod.
    + apply mod32_sub; [apply capacity_mod32 | apply align32_mod].
    + destruct (Z.eq_dec (capacity - align32 reserve) 0);
        [by right | left; lia].
    + lia.
  - split; [done |]. by eapply snd_mem_malloc_tiles.
  - split; [done |]. by eapply snd_mem_free_tiles.
  - done.
Qed.

(** * Further facts about the operations *)

Lemma Coverage_cons_inv e l : Coverage (e :: l) → Coverage l.
Proof. destruct l; simpl; tauto. Qed.

Lemma Coverage_app_inv l1 l2 : Coverage (l1 ++ l2) → Coverage l2.
Proof.
  induction l1 as [| e l1 IH]; [done |].
  intros H. apply IH. by eapply Coverage_cons_inv.
Qed.

Lemma Coverage_cons2 e1 e2 l :
  Coverage (e1 :: e2 :: l) ↔
  addr e1 < addr e2 ∧ addr e1 + size e1 = addr e2 ∧ Coverage (e2 :: l).
Proof. done. Qed.

(** In a pool with Coverage, queue order is address order. *)
Lemma Coverage_addr_le l i j b c :
  Coverage l → l !! i = Some b → l !! j = Some c → (i ≤ j)%nat →
  addr b ≤ addr c.
Proof.
  revert i j b. induction l as [| e1 l IH]; intros i j b Hc Hi Hj Hij;
    [done |].
  destruct j as [| j]; [assert (i = 0%nat) as -> by lia; simpl in *;
                         assert (b = c) as -> by congruence; lia |].
  destruct i as [| i].
  - simpl in Hi, Hj. injection Hi as ->.
    destruct l as [| e2 l]; [done |].
    apply Coverage_cons2 in Hc as (Hlt & _ & Hc).
    assert (addr e2 ≤ addr c); [| lia].
    eapply (IH 0%nat j e2); [done | done | done | lia].
  - simpl in Hi, Hj. apply Coverage_cons_inv in Hc.
    eapply (IH i j); [done | done | done | lia].
Qed.

Lemma best_fit_ext (cand cand' : snd_block_t → Prop) l i b :
  (∀ e, e ∈ l → cand e ↔ cand' e) →
  best_fit cand l i b → best_fit cand' l i b.
Proof.
  intros Hext (Hl & Hc & Hmin). split; [done |].
  split; [by apply Hext; [eapply list_elem_of_lookup_2 |] |].
  intros j c Hj Hc'. apply Hmin; [done |].
  by apply Hext; [eapply list_elem_of_lookup_2 |].
Qed.

(** The two successful paths of [snd_mem_malloc], from what the search
    finds. *)
Lemma snd_mem_malloc_perfect_fit m sz s i b :
  initted s = true → sz ≠ 0 →
  find_best (align32 sz) (pool s) = Some (i, b) →
  size b = align32 sz →
  snd_mem_malloc true m sz s
  = Returns (addr b,
             {| initted := true; pool := <[i := set_inuse true b]> (pool s) |},
             []).
Proof.
  intros Hi Hz Hf Hsz. unfold snd_mem_malloc. rewrite Hi. simpl.
  apply Z.eqb_neq in Hz. rewrite Hz, Hf.
  apply Z.eqb_eq in Hsz. by rewrite Hsz.
Qed.

Lemma snd_mem_malloc_split sz s i b :
  initted s = true → sz ≠ 0 →
  find_best (align32 sz) (pool s) = Some (i, b) →
  size b ≠ align32 sz →
  snd_mem_malloc true true sz s
  = Returns (addr b,
             {| initted := true;
                pool := split_at i b (align32 sz) (pool s) |},
             []).
Proof.
  intros Hi Hz Hf Hsz. unfold snd_mem_malloc. rewrite Hi. simpl.
  apply Z.eqb_neq in Hz. rewrite Hz, Hf.
  apply Z.eqb_neq in Hsz. rewrite Hsz.
  apply find_best_split in Hf as (pre & suf & -> & -> & _).
  by rewrite insert_after_middle, insert_at_middle, split_at_middle.
Qed.




(** * Properties of the allocator *)

Lemma snd_mem_init_ok sd reserve s0 :
  snd_mem_init sd true true reserve s0
  = (0, pool_of [mk_block (align32 reserve)
                          (wrap32 (capacity - align32 reserve)) false], []).
Proof.
  unfold snd_mem_init, snd_mem_shutdown.
  destruct (initted s0), sd; reflexivity.
Qed.

Lemma reachable_within_init rmax smax reserve :
  uint32 reserve → align32 reserve ≤ rmax →
  reachable_within rmax smax (align32 reserve) []
    (pool_of [mk_block (align32 reserve)
                       (wrap32 (capacity - align32 reserve)) false]).
Proof.
  intros Hu Hmax.
  apply (reach_init rmax smax true true true reserve uninit _ []); done.
Qed.

(** C1 (the code departs from the claim).  The claim: [snd_mem_available]
    returns the size of the largest free block, and blocks in use never
    contribute.  The loop of [snd_mem_available] compares [e->size] without
    looking at [e->inuse]: after [snd_mem_init (0)] and
    [snd_mem_malloc (2097120)] the pool is an in-use block of 2097120 bytes
    followed by a free block of 32 bytes, the largest free block has 32 bytes,
    and [snd_mem_available] returns 2097120. *)
Theorem available_reports_inuse_block :
  let s := pool_of [mk_block 0 2097120 true; mk_block 2097120 32 false] in
  reachable_in_range 0 [0] s ∧
  largest_free (pool s) = 32 ∧
  snd_mem_available true s = (2097120, []).
Proof.
  split_and!; [| reflexivity | reflexivity].
  apply (reach_malloc _ _ 0 [] (pool_of [mk_block 0 2097152 false])
           true true 2097120 0 _ []);
    [| range_lia | lia | reflexivity].
  apply (reachable_within_init capacity (2 ^ 32 - 32) 0);
    [range_lia | vm_compute; discriminate].
Qed.

(** C2.  After [snd_mem_init (0)], whatever the state before,
    [snd_mem_available] returns 2097152; [snd_mem_malloc (1000)] rounds the
    request to 1024, marks [0, 1024) in use, leaves one free block of
    2097152 - 1024 bytes at 1024 and returns 0.  The calls that fail return
    0 as well: a request of 0 bytes, a lock that is not acquired, and the
    request of 2097152 bytes that no block can hold any more. *)
Theorem scenario_A_returns_offset_zero sd s0 :
  let s1 := pool_of [mk_block 0 2097152 false] in
  let s2 := pool_of [mk_block 0 1024 true;
                     mk_block 1024 (2097152 - 1024) false] in
  snd_mem_init sd true true 0 s0 = (0, s1, []) ∧
  snd_mem_available true s1 = (2097152, []) ∧
  align32 1000 = 1024 ∧
  snd_mem_malloc true true 1000 s1 = Returns (0, s2, []) ∧
  snd_mem_malloc true true 0 s1 = Returns (0, s1, []) ∧
  snd_mem_malloc false true 1000 s1 = Returns (0, s1, [SetErrno EAGAIN]) ∧
  snd_mem_malloc true true 2097152 s2 = Returns (0, s2, [LogNoChunk 2097152]).
Proof.
  split_and!; reflexivity.
Qed.

Lemma wrap32_negative x : - 2 ^ 32 ≤ x < 0 → wrap32 x = 2 ^ 32 + x.
Proof.
  intros H. unfold wrap32.
  replace x with ((2 ^ 32 + x) + (-1) * 2 ^ 32) at 1 by lia.
  rewrite Z.mod_add by lia. apply Z.mod_small. lia.
Qed.

(** C9.  [snd_mem_init] does not compare the reserve with the capacity.  For
    every 32-bit reserve whose round-up to 32 bytes exceeds 2097152 the call
    succeeds (lock and record allocation permitting); the size of the one
    block is 2097152 - rounded reserve modulo 2^32, that is 2^32 + 2097152 -
    rounded reserve, a free block larger than all of SPU RAM; and the sizes do
    not sum to 2097152 - rounded reserve. *)
Theorem init_reserve_beyond_capacity sd s0 reserve :
  uint32 reserve → capacity < align32 reserve →
  let r := align32 reserve in
  let blk := mk_block r (2 ^ 32 + capacity - r) false in
  snd_mem_init sd true true reserve s0 = (0, pool_of [blk], []) ∧
  size blk = wrap32 (capacity - r) ∧
  capacity < size blk ∧
  ¬ Conservation r (pool (pool_of [blk])).
Proof.
  intros Hu Hbig r blk.
  pose proof (align32_uint32 reserve) as [H0 H1]. fold r in H0, H1, Hbig.
  assert (wrap32 (capacity - r) = 2 ^ 32 + capacity - r) as Hw.
  { rewrite wrap32_negative; unfold capacity in *; lia. }
  split_and!.
  - rewrite snd_mem_init_ok. fold r. by rewrite Hw.
  - by rewrite Hw.
  - simpl. lia.
  - unfold Conservation. simpl. lia.
Qed.

Lemma init_reserve_beyond_capacity_witness :
  uint32 2097153 ∧ capacity < align32 2097153 ∧
  snd_mem_init true true true 2097153 uninit
  = (0, pool_of [mk_block 2097184 4294967264 false], []).
Proof.
  assert (uint32 2097153) as Hu by (range_lia).
  assert (capacity < align32 2097153) as Hc by reflexivity.
  split_and!; [done | done |].
  exact (proj1 (init_reserve_beyond_capacity true uninit 2097153 Hu Hc)).
Defined.

Lemma pool_state_eq s s' :
  initted s' = initted s → pool s' = pool s → s' = s.
Proof. destruct s, s'; simpl; congruence. Qed.

(** C3, as the code has it.  [snd_mem_free] does not know which offsets
    [snd_mem_malloc] returned: it looks for a block with the given address.
    In every reachable state, for a non-zero offset that [snd_mem_malloc] has
    not returned since [snd_mem_init], [snd_mem_free] (with the lock acquired)
    returns and leaves the pool as it was; the "non-existent block" message
    is logged when no block of the queue has that address, and nothing is
    logged when one has. *)
Theorem free_of_unreturned_offset r h s a :
  reachable r h s → a ≠ 0 → a ∉ h →
  ∃ ev, snd_mem_free true a s = Returns (s, ev) ∧
        (Forall (λ c, addr c ≠ a) (pool s) → ev = [LogFreeNonExistent 0]) ∧
        (Exists (λ c, addr c = a) (pool s) → ev = []).
Proof.
  intros Hreach Ha Hh.
  pose proof (reachable_within_naf _ _ _ _ _ Hreach) as [Hi Hnaf].
  pose proof (reachable_within_inuse_returned _ _ _ _ _ Hreach) as Hret.
  destruct (snd_mem_free_returns true a s Hi) as (s' & ev & Hfree).
  rewrite Hfree.
  apply snd_mem_free_result in Hfree
    as [(_ & _ & [? | ?]) | [(-> & -> & _ & _ & Hnone) |
        (pre & e & suf & pre1 & cur & cur' & suf' & _ & _ & -> & Hp & _ & He
         & Hmp & Hmn & Hi' & Hp')]]; [done | done | |].
  - exists [LogFreeNonExistent 0]. split_and!; [done | done |].
    intros Hex. apply Exists_exists in Hex as (c & Hc & Hca).
    rewrite Forall_forall in Hnone. by destruct (Hnone c Hc).
  - assert (inuse e = false) as Hfree.
    { destruct (inuse e) eqn:Hu; [| done]. exfalso. apply Hh.
      unfold inuse_returned in Hret. rewrite Forall_forall in Hret.
      rewrite <- He. apply Hret; [| done].
      rewrite Hp. apply elem_of_app. right. apply elem_of_cons. by left. }
    rewrite Hp in Hnaf. apply naf_middle in Hnaf as [Hpre Hsuf].
    rewrite <- Hfree, set_inuse_same in Hmp.
    destruct (merged_prev_of_free _ _ _ _ _ Hpre Hfree Hmp) as [-> ->].
    destruct (merged_next_of_free _ _ _ _ _ Hsuf Hfree Hmn) as [-> ->].
    assert (s' = s) as -> by (apply pool_state_eq; congruence).
    exists []. split_and!; [done | | done].
    intros Hnone. rewrite Hp in Hnone.
    apply Forall_app in Hnone as [_ Hnone].
    apply Forall_cons in Hnone as [Hne _]. done.
Qed.

Lemma scenario_A_reachable :
  reachable_in_range 0 [0]
    (pool_of [mk_block 0 1024 true; mk_block 1024 2096128 false]).
Proof.
  apply (reach_malloc _ _ 0 [] (pool_of [mk_block 0 2097152 false])
           true true 1000 0 _ []);
    [| range_lia | lia | reflexivity].
  apply (reachable_within_init capacity (2 ^ 32 - 32) 0);
    [range_lia | vm_compute; discriminate].
Qed.

Lemma reachable_within_mono rmax smax rmax' smax' r h s :
  rmax ≤ rmax' → smax ≤ smax' →
  reachable_within rmax smax r h s → reachable_within rmax' smax' r h s.
Proof.
  intros Hr Hs. induction 1.
  - eapply reach_init; [done | lia | done].
  - eapply reach_malloc; [done | done | lia | done].
  - eapply reach_free; done.
  - eapply reach_available; done.
Qed.

Lemma reachable_in_range_reachable r h s :
  reachable_in_range r h s → reachable r h s.
Proof. apply reachable_within_mono; unfold capacity; lia. Qed.

Lemma free_of_unreturned_offset_witness :
  ∃ ev, snd_mem_free true 4096
          (pool_of [mk_block 0 1024 true; mk_block 1024 2096128 false])
        = Returns (pool_of [mk_block 0 1024 true; mk_block 1024 2096128 false],
                   ev).
Proof.
  destruct (free_of_unreturned_offset 0 [0]
              (pool_of [mk_block 0 1024 true; mk_block 1024 2096128 false])
              4096) as (ev & Hev & _).
  - apply reachable_in_range_reachable, scenario_A_reachable.
  - lia.
  - intros H. apply elem_of_cons in H as [H | H]; [lia |].
    by apply elem_of_nil in H.
  - by exists ev.
Defined.

(** C3, as stated, fails.  After [snd_mem_init (0)] and
    [snd_mem_malloc (1000)], which returned 0, the offset 1024 has never been
    returned; it is the address of the free remainder, so [snd_mem_free (1024)]
    finds a block and logs nothing. *)
Lemma free_of_unreturned_offset_is_silent :
  let s := pool_of [mk_block 0 1024 true; mk_block 1024 2096128 false] in
  reachable 0 [0] s ∧ 1024 ≠ 0 ∧ (1024 ∉ [0]) ∧
  snd_mem_free true 1024 s = Returns (s, []) ∧
  ¬ (∃ s' ev x, snd_mem_free true 1024 s = Returns (s', ev) ∧
                LogFreeNonExistent x ∈ ev).
Proof.
  split_and!.
  - apply reachable_in_range_reachable, scenario_A_reachable.
  - lia.
  - intros H. apply elem_of_cons in H as [H | H]; [lia |].
    by apply elem_of_nil in H.
  - reflexivity.
  - intros (s' & ev & x & H & Hin).
    change (snd_mem_free true 1024
              (pool_of [mk_block 0 1024 true; mk_block 1024 2096128 false]))
      with (Returns (pool_of [mk_block 0 1024 true;
                              mk_block 1024 2096128 false],
                     @nil event)) in H.
    injection H as <- <-. by apply elem_of_nil in Hin.
Qed.

(** C7.  On an initialised pool without two adjacent free blocks (the
    No-adjacent-free part of the ledger invariant, which every reachable pool
    has, see [reachable_within_naf]), [snd_mem_free] returns, on whichever of
    its paths, with a pool without two adjacent free blocks. *)
Theorem free_leaves_no_adjacent_free lk a s :
  initted s = true → no_adjacent_free (pool s) →
  ∃ s' ev, snd_mem_free lk a s = Returns (s', ev) ∧
           no_adjacent_free (pool s').
Proof.
  intros Hi Hnaf.
  destruct (snd_mem_free_returns lk a s Hi) as (s' & ev & Hfree).
  exists s', ev. split; [done |]. by eapply snd_mem_free_naf.
Qed.

Lemma free_leaves_no_adjacent_free_witness :
  ∃ s' ev,
    snd_mem_free true 1024
      (pool_of [mk_block 0 1024 false; mk_block 1024 1024 true;
                mk_block 2048 2095104 false])
    = Returns (s', ev) ∧ no_adjacent_free (pool s').
Proof.
  apply (free_leaves_no_adjacent_free true 1024).
  - reflexivity.
  - simpl. tauto.
Defined.

Lemma selects_best_fit_candidate s sz : selects_best_fit candidate s sz.
Proof.
  split_and!.
  - apply find_best_None.
  - intros i b. apply find_best_Some.
  - intros lk m p s' ev H Hp.
    apply snd_mem_malloc_result in H
      as [(_ & ->) | (pre & b & suf & _ & _ & _ & Hf & _ & _ & -> & _)];
      [done |].
    eauto.
Qed.

(** C5, as the code has it.  The search of [snd_mem_malloc] considers exactly
    the free blocks whose size is at least the rounded request and below
    4194304, the first value of [best_size]; among them it selects the first
    one of the smallest size (first in queue order, which under Coverage is
    the lowest address), and a non-zero return value is the address of the
    selected block.  Where every block is smaller than 4194304 bytes, these
    are all the free blocks that are large enough. *)
Theorem malloc_selects_best_fit s sz :
  selects_best_fit candidate s sz ∧
  (∀ i b j c,
     Coverage (pool s) →
     find_best (align32 sz) (pool s) = Some (i, b) →
     pool s !! j = Some c → candidate (align32 sz) c → size c = size b →
     addr b ≤ addr c) ∧
  (Forall (λ e, size e < best_size_limit) (pool s) →
   selects_best_fit large_enough_free s sz).
Proof.
  pose proof (selects_best_fit_candidate s sz) as Hsel. split_and!.
  - done.
  - intros i b j c Hcov Hf Hj Hc Hsz.
    apply find_best_Some in Hf as (Hi & _ & Hmin).
    destruct (Hmin j c Hj Hc) as [_ Hij].
    eapply Coverage_addr_le; [done | done | done | by apply Hij].
  - intros Hsmall. rewrite Forall_forall in Hsmall.
    assert (∀ e, e ∈ pool s →
                 candidate (align32 sz) e ↔ large_enough_free (align32 sz) e)
      as Hext.
    { intros e He. specialize (Hsmall e He).
      unfold candidate, large_enough_free. tauto. }
    destruct Hsel as (Hnone & Hsome & Hret). split_and!.
    + rewrite Hnone. split; intros H e He Hc; apply (H e He); by apply Hext.
    + intros i b. rewrite Hsome. split; apply best_fit_ext; intros e He;
        [by apply Hext | symmetry; by apply Hext].
    + done.
Qed.

Lemma big_pool_reachable :
  reachable 2097184 [] (pool_of [mk_block 2097184 4294967264 false]).
Proof.
  apply (reachable_within_init (2 ^ 32) (2 ^ 32) 2097153);
    [range_lia | vm_compute; discriminate].
Qed.

(** C5, as stated, fails.  [snd_mem_init (2097153)] leaves one free block of
    4294967264 bytes.  It is free and large enough for a request of 32 bytes,
    and the search does not select it: [snd_mem_malloc (32)] logs that no
    chunk is big enough and returns 0. *)
Lemma malloc_skips_block_of_4MiB_or_more :
  let s := pool_of [mk_block 2097184 4294967264 false] in
  reachable 2097184 [] s ∧
  snd_mem_malloc true true 32 s = Returns (0, s, [LogNoChunk 32]) ∧
  ¬ selects_best_fit large_enough_free s 32.
Proof.
  split_and!; [apply big_pool_reachable | reflexivity |].
  intros (Hnone & _ & _).
  apply (proj1 Hnone eq_refl (mk_block 2097184 4294967264 false)).
  - apply elem_of_cons. by left.
  - split; [done |]. vm_compute. discriminate.
Qed.

Lemma malloc_selects_best_fit_witness :
  selects_best_fit large_enough_free
    (pool_of [mk_block 0 1024 true; mk_block 1024 2096128 false]) 1000.
Proof.
  apply (malloc_selects_best_fit
           (pool_of [mk_block 0 1024 true; mk_block 1024 2096128 false]) 1000).
  repeat constructor.
Defined.

(** ** Sizes are multiples of 32 *)







(** C10, as the code has it.  A request of 2^32 - 31 to 2^32 - 1 bytes rounds
    to 0.  On an initialised pool where the best fit for 0 bytes among the
    free blocks below 4194304 bytes exists and is not empty, the call (with
    the lock and the block record obtained) turns that block into a block of
    0 bytes in use, inserts the whole of it as a free block at the same
    address behind it, and returns that address.  The queue then holds two
    blocks with one address, which Coverage excludes. *)
Theorem malloc_size_wraps_to_zero s sz i b :
  initted s = true → 2 ^ 32 - 31 ≤ sz < 2 ^ 32 →
  best_fit (candidate 0) (pool s) i b → size b ≠ 0 → uint32 (addr b) →
  let l' := take i (pool s)
            ++ mk_block (addr b) 0 true
               :: mk_block (addr b) (size b) false :: drop (S i) (pool s) in
  align32 sz = 0 ∧
  snd_mem_malloc true true sz s = Returns (addr b, pool_of l', []) ∧
  ¬ Coverage l'.
Proof.
  intros Hi Hsz Hbest Hne Ha l'.
  pose proof (align32_wraps sz Hsz) as Hz.
  pose proof Hbest as (_ & (_ & H0 & Hlim) & _).
  split_and!; [done | |].
  - rewrite <- Hz in Hbest. apply find_best_Some in Hbest.
    rewrite (snd_mem_malloc_split sz s i b Hi ltac:(lia) Hbest)
      by (rewrite Hz; done).
    unfold split_at, l'. rewrite Hz, Z.add_0_r, Z.sub_0_r.
    rewrite !wrap32_small; [done | | done].
    unfold uint32, best_size_limit in *. lia.
  - unfold l'. intros Hc. apply Coverage_app_inv in Hc.
    apply Coverage_cons2 in Hc as (Hlt & _). simpl in Hlt. lia.
Qed.

Lemma malloc_size_wraps_to_zero_witness :
  snd_mem_malloc true true 4294967295 (pool_of [mk_block 32 2097120 false])
  = Returns (32, pool_of [mk_block 32 0 true; mk_block 32 2097120 false], []).
Proof.
  refine (proj1 (proj2 (malloc_size_wraps_to_zero
            (pool_of [mk_block 32 2097120 false]) 4294967295
            0%nat (mk_block 32 2097120 false) eq_refl _ _ _ _))).
  - lia.
  - split; [reflexivity |]. split.
    + unfold candidate, best_size_limit. simpl. split_and!; [done | lia | lia].
    + intros j c Hj _. destruct j as [| j]; [| done].
      injection Hj as <-. split; [lia | intros _; lia].
  - simpl. lia.
  - unfold uint32. simpl. lia.
Defined.

(** C10, as stated, fails.  After [snd_mem_init (2097153)] the pool has a free
    block, of 4294967264 bytes, and [snd_mem_malloc (4294967295)] finds no
    chunk.  After [snd_mem_init (2097152)] the free block of the pool is
    empty, [snd_mem_malloc (4294967295)] takes it as a perfect fit and inserts
    nothing, and the pool keeps Coverage. *)
Lemma malloc_size_wraps_without_split :
  (reachable 2097184 [] (pool_of [mk_block 2097184 4294967264 false]) ∧
   inuse (mk_block 2097184 4294967264 false) = false ∧
   snd_mem_malloc true true 4294967295
     (pool_of [mk_block 2097184 4294967264 false])
   = Returns (0, pool_of [mk_block 2097184 4294967264 false], [LogNoChunk 0]))
  ∧
  (reachable_in_range 2097152 [] (pool_of [mk_block 2097152 0 false]) ∧
   snd_mem_malloc true true 4294967295 (pool_of [mk_block 2097152 0 false])
   = Returns (2097152, pool_of [mk_block 2097152 0 true], []) ∧
   Coverage [mk_block 2097152 0 true]).
Proof.
  split; split_and!; try reflexivity.
  - apply big_pool_reachable.
  - apply (reachable_within_init capacity (2 ^ 32 - 32) 2097152);
      [range_lia | vm_compute; discriminate].
Qed.

(** C6, as the code has it.  In every state reached from a successful
    [snd_mem_init] whose rounded reserve [r] is at most 2097152, by calls of
    [snd_mem_malloc] for at most 2^32 - 32 bytes, [snd_mem_free] and
    [snd_mem_available], in any order and whether they succeed or fail, the
    queue has Coverage, Conservation for [r] and Alignment. *)
Theorem in_range_calls_keep_ledger_invariants r h s :
  reachable_in_range r h s → ledger_inv r (pool s).
Proof.
  intros Hreach. apply reachable_in_range_tiles in Hreach as [_ Ht].
  split_and!.
  - by eapply tiles_coverage.
  - by apply tiles_total.
  - by eapply tiles_alignment.
Qed.

Lemma in_range_calls_keep_ledger_invariants_witness :
  ledger_inv 0 [mk_block 0 1024 true; mk_block 1024 2096128 false].
Proof.
  exact (in_range_calls_keep_ledger_invariants 0 [0]
           (pool_of [mk_block 0 1024 true; mk_block 1024 2096128 false])
           scenario_A_reachable).
Defined.

(** C6, as stated, fails.  After [snd_mem_init (0)],
    [snd_mem_malloc (4294967295)] leaves two blocks at address 0, so Coverage
    is lost; and after [snd_mem_init (2097153)] the sizes sum to 4294967264
    and not to 2097152 - 2097184, so Conservation does not hold. *)
Lemma out_of_range_calls_break_ledger_invariants :
  (reachable 0 [0] (pool_of [mk_block 0 0 true; mk_block 0 2097152 false]) ∧
   ¬ ledger_inv 0 [mk_block 0 0 true; mk_block 0 2097152 false]) ∧
  (reachable 2097184 [] (pool_of [mk_block 2097184 4294967264 false]) ∧
   ¬ ledger_inv 2097184 [mk_block 2097184 4294967264 false]).
Proof.
  split; split.
  - apply (reach_malloc _ _ 0 [] (pool_of [mk_block 0 2097152 false])
             true true 4294967295 0 _ []);
      [| range_lia | lia | reflexivity].
    apply (reachable_within_init (2 ^ 32) (2 ^ 32) 0);
      [range_lia | vm_compute; discriminate].
  - intros ((Hlt & _) & _). simpl in Hlt. lia.
  - apply big_pool_reachable.
  - intros (_ & Hcons & _). vm_compute in Hcons. discriminate.
Qed.

(** A block that [snd_mem_malloc] has just taken is given back by
    [snd_mem_free] as it was, when no earlier block of the queue has its
    address and no free block was next to it. *)
Lemma malloc_free_round_trip lk m sz s p s1 ev :
  initted s = true → no_adjacent_free (pool s) →
  (∀ pre b suf, pool s = pre ++ b :: suf →
                uint32 (size b) ∧ Forall (λ c, addr c ≠ addr b) pre) →
  snd_mem_malloc lk m sz s = Returns (p, s1, ev) → p ≠ 0 →
  snd_mem_free true p s1 = Returns (s, []).
Proof.
  intros Hi Hnaf Hwf Hm Hp0.
  apply snd_mem_malloc_result in Hm
    as [(_ & ->) |
        (pre & b & suf & _ & _ & _ & _ & Hp & (Hfree & Hge & _) & -> & Hi1
         & Hs1)]; [done |].
  destruct (Hwf pre b suf Hp) as [Hsize Hpre].
  rewrite Hp in Hnaf. apply naf_middle in Hnaf as [Hnpre Hnsuf].
  rewrite Hi in Hi1.
  assert (set_inuse false b = b) as Hb by (rewrite <- Hfree; apply set_inuse_same).
  destruct Hs1 as [(_ & Hp1) | (Hne & _ & Hp1)].
  - destruct (snd_mem_free_found (addr b) s1 pre (set_inuse true b) suf
                Hi1 Hp0 Hp1 Hpre eq_refl)
      as (pre1 & cur & cur' & suf' & Hmp & Hmn & ->).
    change (set_inuse false (set_inuse true b)) with (set_inuse false b) in Hmp.
    rewrite Hb in Hmp.
    destruct (merged_prev_of_free _ _ _ _ _ Hnpre Hfree Hmp) as [-> ->].
    destruct (merged_next_of_free _ _ _ _ _ Hnsuf Hfree Hmn) as [-> ->].
    f_equal. f_equal. symmetry. by apply pool_state_eq.
  - destruct (snd_mem_free_found (addr b) s1 pre _ _ Hi1 Hp0 Hp1 Hpre eq_refl)
      as (pre1 & cur & cur' & suf' & Hmp & Hmn & ->).
    destruct (merged_prev_of_free _ _ _ _ _ Hnpre Hfree Hmp) as [-> ->].
    inversion Hmn as [| ? ? ? Hu | ? ? ? _ ]; subst; [done |]. simpl.
    pose proof (align32_uint32 sz) as [H0 _].
    assert (wrap32 (align32 sz + wrap32 (size b - align32 sz)) = size b)
      as Hw.
    { rewrite (wrap32_small (size b - _)) by (range_lia).
      replace (align32 sz + (size b - align32 sz)) with (size b) by lia.
      by apply wrap32_small. }
    unfold set_size, set_inuse. simpl. rewrite Hw.
    f_equal. f_equal. symmetry. apply pool_state_eq; [done |]. simpl.
    rewrite Hp. by destruct b; simpl in *; subst.
Qed.

(** ** Blocks that follow one another modulo 2^32 *)

Lemma wtiles_le a e l : wtiles a e l → a ≤ e.
Proof.
  revert a. induction l as [| b l IH]; intros a; simpl; [lia |].
  intros (_ & Hpos & Ht). apply IH in Ht. lia.
Qed.

Lemma wtiles_middle a e pre b suf :
  wtiles a e (pre ++ b :: suf) →
  ∃ ab, a ≤ ab ∧ addr b = wrap32 ab ∧ 0 ≤ size b ∧ ab + size b ≤ e ∧
        Forall (λ c, ∃ ac, a ≤ ac ∧ ac < ab ∧ addr c = wrap32 ac) pre.
Proof.
  revert a. induction pre as [| z pre IH]; intros a.
  - simpl. intros (Hb & Hpos & Ht). apply wtiles_le in Ht. exists a.
    split_and!; [lia | done | lia | lia | constructor].
  - simpl. intros (Hz & Hpos & Ht).
    destruct Hpos as [Hpos | [_ Hnil]]; [| by destruct pre].
    apply IH in Ht as (ab & ? & ? & ? & ? & Hall). exists ab.
    split_and!; [lia | done | done | done |].
    constructor; [exists a; split_and!; [lia | lia | done] |].
    eapply Forall_impl; [exact Hall |]. simpl.
    intros c (ac & ? & ? & ?). exists ac. split_and!; [lia | done | done].
Qed.

Lemma wtiles_set_inuse a e pre b suf u :
  wtiles a e (pre ++ b :: suf) → wtiles a e (pre ++ set_inuse u b :: suf).
Proof.
  revert a. induction pre as [| z pre IH]; intros a; [done |].
  simpl. intros (? & Hpos & Ht). split_and!; [done | |].
  - destruct Hpos as [? | [_ ?]]; [by left | by destruct pre].
  - by apply IH.
Qed.

Lemma wrap32_add_l x n : wrap32 (wrap32 x + n) = wrap32 (x + n).
Proof. unfold wrap32. apply Zplus_mod_idemp_l. Qed.

Lemma wtiles_split a e pre b suf n u v :
  wtiles a e (pre ++ b :: suf) → 0 < n < size b →
  wtiles a e (pre ++ mk_block (addr b) n u
                  :: mk_block (wrap32 (addr b + n)) (size b - n) v :: suf).
Proof.
  intros Ht Hn. revert a Ht. induction pre as [| z pre IH]; intros a.
  - simpl. intros (Ha & Hpos & Ht).
    split_and!; simpl; try done; try lia; try (left; lia).
    + by rewrite Ha, wrap32_add_l.
    + by replace (a + n + (size b - n)) with (a + size b) by lia.
  - simpl. intros (? & Hpos & Ht). split_and!; [done | |].
    + destruct Hpos as [? | [_ ?]]; [by left | by destruct pre].
    + by apply IH.
Qed.

Lemma wtiles_merge a e pre b1 b2 suf u :
  wtiles a e (pre ++ b1 :: b2 :: suf) →
  wtiles a e (pre ++ mk_block (addr b1) (size b1 + size b2) u :: suf).
Proof.
  revert a. induction pre as [| z pre IH]; intros a.
  - simpl. intros (Ha & Hpos & _ & Hpos2 & Ht).
    split_and!; simpl; try done.
    + destruct Hpos as [? | [_ ?]]; [| done].
      destruct Hpos2 as [? | [? ->]]; left; lia.
    + by rewrite Z.add_assoc.
  - simpl. intros (? & Hpos & Ht). split_and!; [done | |].
    + destruct Hpos as [? | [_ ?]]; [by left | by destruct pre].
    + by apply IH.
Qed.

(** Over less than 2^32 bytes the sum that coalescing stores does not
    wrap. *)
Lemma wtiles_merge_wrap a e pre b1 b2 suf :
  e - a < 2 ^ 32 → wtiles a e (pre ++ b1 :: b2 :: suf) →
  wtiles a e (pre ++ set_size (wrap32 (size b1 + size b2)) b1 :: suf).
Proof.
  intros Hspan Ht. apply (wtiles_merge _ _ _ _ _ _ (inuse b1)) in Ht.
  pose proof (wtiles_middle _ _ _ _ _ Ht) as (ab & ? & _ & ? & ? & _).
  simpl in *. unfold set_size. rewrite wrap32_small; [done |]. range_lia.
Qed.

Lemma snd_mem_free_wtiles a e lk x s s' ev :
  e - a < 2 ^ 32 → wtiles a e (pool s) →
  snd_mem_free lk x s = Returns (s', ev) →
  wtiles a e (pool s').
Proof.
  intros Hspan Ht H.
  free_cases H pre b suf pre1 cur cur' suf' Hp Hmp Hmn.
  rewrite Hp in Ht. apply (wtiles_set_inuse _ _ _ _ _ false) in Ht.
  assert (wtiles a e (pre1 ++ cur :: suf)) as Ht1.
  { inversion Hmp; subst; [done | done |].
    rewrite <- app_assoc in Ht. by apply wtiles_merge_wrap. }
  inversion Hmn; subst; [done | done |]. by apply wtiles_merge_wrap.
Qed.

Lemma snd_mem_malloc_wtiles a e lk m sz s p s' ev :
  e - a < 2 ^ 32 → wtiles a e (pool s) →
  uint32 sz → sz ≤ 2 ^ 32 - 32 →
  snd_mem_malloc lk m sz s = Returns (p, s', ev) →
  wtiles a e (pool s').
Proof.
  intros Hspan Ht Hsz Hmax H.
  apply snd_mem_malloc_result in H
    as [(-> & _) |
        (pre & b & suf & Hnz & _ & _ & _ & Hp & (_ & Hge & _) & _ & _ & Hs')];
    [done |].
  rewrite Hp in Ht.
  destruct Hs' as [(_ & ->) | (Hne & _ & ->)]; [by apply wtiles_set_inuse |].
  destruct (align32_round_up sz) as [[Hlo Hhi] _]; [range_lia |].
  pose proof (wtiles_middle _ _ _ _ _ Ht) as (ab & ? & _ & ? & ? & _).
  rewrite (wrap32_small (size b - _)) by range_lia.
  apply wtiles_split; [done | range_lia].
Qed.

(** The blocks of a pool reached by requests that do not wrap follow one
    another from the rounded reserve, over less than 2^32 bytes. *)
Lemma reachable_by_sized_requests_wtiles r h s :
  reachable_by_sized_requests r h s →
  wtiles r (r + wrap32 (capacity - r)) (pool s).
Proof.
  induction 1 as [sd lk m reserve s0 s ev Hres Hmax Hinit
                 | r h s lk m sz p s' ev _ IH Hsz Hmax Hm
                 | r h s lk a s' ev _ IH _ Hf
                 | r h s lk v ev _ IH _].
  - apply snd_mem_init_result in Hinit as (-> & _).
    pose proof (wrap32_uint32 (capacity - align32 reserve)) as [H0 _].
    simpl. split_and!; [| | done].
    + symmetry. apply wrap32_small, align32_uint32.
    + destruct (Z.eq_dec (wrap32 (capacity - align32 reserve)) 0);
        [by right | left; lia].
  - pose proof (wrap32_uint32 (capacity - r)).
    apply (snd_mem_malloc_wtiles _ _ lk m sz s p s' ev);
      [range_lia | done | done | done | done].
  - pose proof (wrap32_uint32 (capacity - r)).
    apply (snd_mem_free_wtiles _ _ lk a s s' ev); [range_lia | done | done].
  - done.
Qed.

Lemma wrap32_neq x y : x < y → y - x < 2 ^ 32 → wrap32 x ≠ wrap32 y.
Proof.
  unfold wrap32. intros Hlt Hspan Heq.
  assert ((y - x) mod 2 ^ 32 = 0) as Hz
    by (rewrite Zminus_mod, Heq, Z.sub_diag; done).
  rewrite Z.mod_small in Hz by lia. lia.
Qed.

(** C8, as the code has it.  In every state [s] reached from a successful
    [snd_mem_init], whatever its reserve, by requests of at most 2^32 - 32
    bytes and by calls of [snd_mem_free] and [snd_mem_available], when
    [snd_mem_malloc], for any size, returns a non-zero offset, [snd_mem_free]
    of that offset (with the lock acquired) gives back exactly [s], after a
    perfect fit and after a split. *)
Theorem malloc_then_free_restores_pool r h s lk m sz p s1 ev :
  reachable_by_sized_requests r h s →
  snd_mem_malloc lk m sz s = Returns (p, s1, ev) → p ≠ 0 →
  snd_mem_free true p s1 = Returns (s, []).
Proof.
  intros Hreach Hm Hp.
  pose proof (reachable_within_naf _ _ _ _ _ Hreach) as [Hi Hnaf].
  apply reachable_by_sized_requests_wtiles in Hreach as Ht.
  pose proof (wrap32_uint32 (capacity - r)) as HS.
  eapply malloc_free_round_trip; [done | done | | done | done].
  intros pre b suf Hpool. rewrite Hpool in Ht.
  apply wtiles_middle in Ht as (ab & ? & Hb & ? & ? & Hall).
  split; [range_lia |].
  eapply Forall_impl; [exact Hall |]. simpl. intros c (ac & ? & ? & ->).
  rewrite Hb. apply wrap32_neq; range_lia.
Qed.

Lemma malloc_then_free_restores_pool_witness :
  snd_mem_free true 4293918720
    (pool_of [mk_block 4293918720 128 true; mk_block 4293918848 3145600 false])
  = Returns (pool_of [mk_block 4293918720 3145728 false], []).
Proof.
  apply (malloc_then_free_restores_pool 4293918720 []
           (pool_of [mk_block 4293918720 3145728 false])
           true true 100 4293918720 _ []).
  - apply (reachable_within_init (2 ^ 32) (2 ^ 32 - 32) 4293918720);
      [range_lia | vm_compute; discriminate].
  - reflexivity.
  - lia.
Defined.

(** C8, as stated, fails.  [snd_mem_init (32)] and
    [snd_mem_malloc (4294967295)], which returns 32, leave an empty block in
    use at 32 in front of the free block at 32.  From that state
    [snd_mem_malloc (32)] returns 32 again, and [snd_mem_free (32)] frees the
    empty block, the first one with that address: the pool is not what it was
    before the request. *)
Lemma round_trip_fails_after_wrapped_request :
  let s := pool_of [mk_block 32 0 true; mk_block 32 2097120 false] in
  let s1 := pool_of [mk_block 32 0 true; mk_block 32 32 true;
                     mk_block 64 2097088 false] in
  let s2 := pool_of [mk_block 32 0 false; mk_block 32 32 true;
                     mk_block 64 2097088 false] in
  reachable 32 [32] s ∧
  snd_mem_malloc true true 32 s = Returns (32, s1, []) ∧
  32 ≠ 0 ∧
  snd_mem_free true 32 s1 = Returns (s2, []) ∧
  pool s2 ≠ pool s.
Proof.
  split_and!; [| reflexivity | lia | reflexivity | discriminate].
  apply (reach_malloc _ _ 32 [] (pool_of [mk_block 32 2097120 false])
           true true 4294967295 32 _ []);
    [| range_lia | lia | reflexivity].
  apply (reachable_within_init (2 ^ 32) (2 ^ 32) 32);
    [range_lia | vm_compute; discriminate].
Qed.

(** * Further properties of the allocator *)

Lemma used_bytes_app l1 l2 :
  used_bytes (l1 ++ l2) = used_bytes l1 + used_bytes l2.
Proof.
  induction l1 as [| e l1 IH]; simpl; [lia |].
  destruct (inuse e); lia.
Qed.

Lemma used_bytes_cons e l :
  used_bytes (e :: l) = (if inuse e then size e else 0) + used_bytes l.
Proof. simpl. destruct (inuse e); lia. Qed.

(** A call of [snd_mem_malloc] that returns has either left the pool as it
    was and returned 0, or put exactly one more block in use: a block of the
    rounded size at the returned address, and the bytes in use have grown by
    the rounded size. *)
Theorem malloc_accounts_for_rounded_size lk m sz s p s' ev :
  snd_mem_malloc lk m sz s = Returns (p, s', ev) →
  (s' = s ∧ p = 0) ∨
  (mk_block p (align32 sz) true ∈ pool s' ∧
   used_bytes (pool s') = used_bytes (pool s) + align32 sz).
Proof.
  intros H.
  apply snd_mem_malloc_result in H
    as [? | (pre & b & suf & _ & _ & _ & _ & Hp & (Hfree & _) & -> & _ & Hs')];
    [by left | right].
  rewrite Hp.
  destruct Hs' as [(Hsz & ->) | (_ & _ & ->)].
  - split.
    + apply elem_of_app. right. apply elem_of_cons. left.
      unfold set_inuse. by rewrite Hsz.
    + rewrite !used_bytes_app, !used_bytes_cons. simpl. rewrite Hfree. lia.
  - split.
    + apply elem_of_app. right. apply elem_of_cons. by left.
    + rewrite !used_bytes_app, !used_bytes_cons. simpl. rewrite Hfree. lia.
Qed.

Lemma malloc_accounts_for_rounded_size_witness :
  (pool_of [mk_block 0 1024 true; mk_block 1024 2096128 false]
   = pool_of [mk_block 0 2097152 false] ∧ 0 = 0) ∨
  (mk_block 0 (align32 1000) true
     ∈ pool (pool_of [mk_block 0 1024 true; mk_block 1024 2096128 false]) ∧
   used_bytes (pool (pool_of [mk_block 0 1024 true;
                              mk_block 1024 2096128 false]))
   = used_bytes (pool (pool_of [mk_block 0 2097152 false])) + align32 1000).
Proof.
  apply (malloc_accounts_for_rounded_size true true 1000
           (pool_of [mk_block 0 2097152 false]) 0 _ []).
  reflexivity.
Defined.

Lemma merged_prev_used pre e pre1 cur :
  merged_prev pre e pre1 cur → inuse e = false →
  used_bytes (pre1 ++ [cur]) = used_bytes pre.
Proof.
  intros H He. destruct H.
  - simpl. by rewrite He.
  - rewrite used_bytes_app. simpl. rewrite He. lia.
  - rewrite !used_bytes_app. simpl. rewrite H. lia.
Qed.

Lemma merged_next_used cur suf cur' suf' :
  merged_next cur suf cur' suf' → inuse cur = false →
  used_bytes (cur' :: suf') = used_bytes suf.
Proof.
  intros H He. destruct H.
  - simpl. by rewrite He.
  - rewrite used_bytes_cons. rewrite He. lia.
  - rewrite !used_bytes_cons. simpl. rewrite He, H. lia.
Qed.

(** [snd_mem_free] of a non-zero address, with the lock acquired, takes
    from the bytes in use the size of the first block with that address when
    that block is in use, and nothing otherwise; coalescing moves no byte in
    or out of use. *)
Theorem free_accounts_for_block_size a s s' ev :
  a ≠ 0 →
  snd_mem_free true a s = Returns (s', ev) →
  used_bytes (pool s')
  = used_bytes (pool s)
    - match list_find (λ c, addr c = a) (pool s) with
      | Some (_, e) => if inuse e then size e else 0
      | None => 0
      end.
Proof.
  intros Ha H.
  apply snd_mem_free_result in H
    as [(_ & _ & [? | ?]) | [(-> & _ & _ & _ & Hnone) |
        (pre & e & suf & pre1 & cur & cur' & suf' & _ & _ & _ & Hp & Hpre & He
         & Hmp & Hmn & _ & ->)]]; [done | done | |].
  - apply (list_find_None (λ c, addr c = a)) in Hnone. rewrite Hnone. lia.
  - rewrite Hp, (list_find_addr_middle pre suf e a Hpre He).
    pose proof (merged_prev_facts _ _ _ _ Hmp eq_refl) as [Hcur _].
    pose proof (merged_prev_used _ _ _ _ Hmp eq_refl) as Hu1.
    pose proof (merged_next_used _ _ _ _ Hmn Hcur) as Hu2.
    rewrite used_bytes_app in Hu1. simpl in Hu1. rewrite Hcur in Hu1.
    rewrite !used_bytes_app, Hu2, used_bytes_cons. lia.
Qed.

Lemma free_accounts_for_block_size_witness :
  used_bytes [mk_block 0 1024 true; mk_block 1024 2096128 false]
  = used_bytes [mk_block 0 1024 true; mk_block 1024 128 true;
                mk_block 1152 2096000 false] - 128.
Proof.
  apply (free_accounts_for_block_size 1024
           (pool_of [mk_block 0 1024 true; mk_block 1024 128 true;
                     mk_block 1152 2096000 false])
           (pool_of [mk_block 0 1024 true; mk_block 1024 2096128 false]) []).
  - lia.
  - reflexivity.
Defined.

Lemma merged_prev_keeps_inuse pre e pre1 cur b :
  merged_prev pre e pre1 cur → b ∈ pre → inuse b = true → b ∈ pre1.
Proof.
  intros H Hb Hu. destruct H; [done | done |].
  apply elem_of_app in Hb as [Hb | Hb]; [done |].
  apply list_elem_of_singleton in Hb as ->. congruence.
Qed.

Lemma merged_next_keeps_inuse cur suf cur' suf' b :
  merged_next cur suf cur' suf' → b ∈ suf → inuse b = true → b ∈ suf'.
Proof.
  intros H Hb Hu. destruct H; [done | done |].
  apply elem_of_cons in Hb as [-> | Hb]; [congruence | done].
Qed.

(** [snd_mem_malloc] leaves every block that is in use as it is: same address,
    same size, still in use. *)
Theorem malloc_keeps_blocks_in_use lk m sz s p s' ev b :
  snd_mem_malloc lk m sz s = Returns (p, s', ev) →
  b ∈ pool s → inuse b = true → b ∈ pool s'.
Proof.
  intros H Hb Hu.
  apply snd_mem_malloc_result in H
    as [(-> & _) |
        (pre & best & suf & _ & _ & _ & _ & Hp & (Hfree & _) & _ & _ & Hs')];
    [done |].
  rewrite Hp in Hb.
  assert (b ∈ pre ∨ b ∈ suf) as Hin.
  { apply elem_of_app in Hb as [? | Hb]; [by left |].
    apply elem_of_cons in Hb as [-> | ?]; [congruence | by right]. }
  destruct Hs' as [(_ & ->) | (_ & _ & ->)]; apply elem_of_app;
    destruct Hin as [? | ?]; auto; right;
    repeat (apply elem_of_cons; right); done.
Qed.

Lemma malloc_keeps_blocks_in_use_witness :
  mk_block 0 1024 true
    ∈ pool (pool_of [mk_block 0 1024 true; mk_block 1024 128 true;
                     mk_block 1152 2096000 false]).
Proof.
  apply (malloc_keeps_blocks_in_use true true 100
           (pool_of [mk_block 0 1024 true; mk_block 1024 2096128 false])
           1024 _ []).
  - reflexivity.
  - apply elem_of_cons. by left.
  - reflexivity.
Defined.

(** [snd_mem_free] leaves a block in use as it is unless the block has the
    address passed to the call, and that address is not 0: whatever is passed,
    a block in use at address 0 stays in use. *)
Theorem free_keeps_other_blocks_in_use lk a s s' ev b :
  snd_mem_free lk a s = Returns (s', ev) →
  b ∈ pool s → inuse b = true → addr b ≠ a ∨ a = 0 →
  b ∈ pool s'.
Proof.
  intros H Hb Hu Ha.
  apply snd_mem_free_result in H
    as [(-> & _) | [(-> & _) |
        (pre & e & suf & pre1 & cur & cur' & suf' & Ha0 & _ & _ & Hp & _ & He
         & Hmp & Hmn & _ & ->)]]; [done | done |].
  destruct Ha as [Ha | Ha]; [| done].
  rewrite Hp in Hb. apply elem_of_app in Hb as [Hb | Hb].
  - apply elem_of_app. left. by eapply merged_prev_keeps_inuse.
  - apply elem_of_cons in Hb as [-> | Hb]; [done |].
    apply elem_of_app. right. apply elem_of_cons. right.
    by eapply merged_next_keeps_inuse.
Qed.

Lemma free_keeps_other_blocks_in_use_witness :
  mk_block 0 1024 true
    ∈ pool (pool_of [mk_block 0 1024 true; mk_block 1024 2096128 false]).
Proof.
  apply (free_keeps_other_blocks_in_use true 0
           (pool_of [mk_block 0 1024 true; mk_block 1024 2096128 false])
           _ []).
  - reflexivity.
  - apply elem_of_cons. by left.
  - reflexivity.
  - by right.
Defined.

(** ** Where the blocks of a tiling lie *)

Lemma tiles_from a l : tiles a l → Forall (λ c, a ≤ addr c) l.
Proof.
  revert a. induction l as [| c l IH]; intros a; [constructor |].
  simpl. intros (Hc & _ & _ & Hpos & Ht). constructor; [lia |].
  apply IH in Ht. eapply Forall_impl; [exact Ht |]. simpl. intros x Hx.
  destruct Hpos as [? | [? _]]; lia.
Qed.

Lemma tiles_after a pre b suf :
  tiles a (pre ++ b :: suf) → Forall (λ c, addr b + size b ≤ addr c) suf.
Proof.
  revert a. induction pre as [| z pre IH]; intros a.
  - simpl. intros (-> & _ & _ & _ & Ht). by apply tiles_from.
  - simpl. intros (_ & _ & _ & _ & Ht). by eapply IH.
Qed.

Lemma tiles_before a pre b suf :
  tiles a (pre ++ b :: suf) → Forall (λ c, addr c + size c ≤ addr b) pre.
Proof.
  revert a. induction pre as [| z pre IH]; intros a; [constructor |].
  simpl. intros (Hz & _ & _ & _ & Ht). constructor; [| by eapply IH].
  apply tiles_from in Ht. apply Forall_app in Ht as [_ Ht].
  apply Forall_cons in Ht as [Hb _]. lia.
Qed.

(** The block after a block that is not the last one starts above it. *)
Lemma tiles_after_lt a pre b suf :
  tiles a (pre ++ b :: suf) → Forall (λ c, addr b < addr c) suf.
Proof.
  intros Ht. pose proof (tiles_after _ _ _ _ Ht) as Hle.
  destruct suf as [| c suf]; [constructor |].
  assert (0 < size b) as Hpos.
  { clear Hle. revert a Ht. induction pre as [| z pre IH]; intros a.
    - simpl. intros (_ & _ & _ & [? | [_ ?]] & _); done.
    - simpl. intros (_ & _ & _ & _ & Ht). by eapply IH. }
  eapply Forall_impl; [exact Hle |]. simpl. intros x Hx. lia.
Qed.

(** In a pool used within its range, a request of at most 2^32 - 32 bytes
    that [snd_mem_malloc] grants (the pool has changed) gets an address [p]
    that is a multiple of 32 and not below the rounded reserve, and the bytes
    from [p] to [p] plus the rounded size, which hold the bytes asked for, end
    within the 2097152 bytes of SPU RAM. *)
Theorem malloc_block_lies_in_pool r h s lk m sz p s' ev :
  reachable_in_range r h s → uint32 sz → sz ≤ 2 ^ 32 - 32 →
  snd_mem_malloc lk m sz s = Returns (p, s', ev) → s' ≠ s →
  r ≤ p ∧ p mod 32 = 0 ∧ sz ≤ align32 sz ∧ p + align32 sz ≤ capacity.
Proof.
  intros Hreach Hu Hmax H Hne.
  apply reachable_in_range_tiles in Hreach as [Hr Ht].
  apply snd_mem_malloc_result in H
    as [(-> & _) |
        (pre & b & suf & _ & _ & _ & _ & Hp & (_ & Hge & _) & -> & _ & _)];
    [done |].
  rewrite Hp in Ht. apply tiles_middle in Ht as (? & ? & ? & ? & _).
  destruct (align32_round_up sz) as [[? ?] _]; [range_lia |].
  split_and!; [done | done | done | lia].
Qed.

Lemma malloc_block_lies_in_pool_witness :
  0 ≤ 1024 ∧ 1024 mod 32 = 0 ∧ 100 ≤ align32 100 ∧
  1024 + align32 100 ≤ capacity.
Proof.
  apply (malloc_block_lies_in_pool 0 [0]
           (pool_of [mk_block 0 1024 true; mk_block 1024 2096128 false])
           true true 100 1024
           (pool_of [mk_block 0 1024 true; mk_block 1024 128 true;
                     mk_block 1152 2096000 false]) []).
  - exact scenario_A_reachable.
  - range_lia.
  - lia.
  - reflexivity.
  - discriminate.
Defined.

(** In a pool used within its range, the bytes that [snd_mem_malloc] hands
    out overlap no block that was in use before the call. *)
Theorem malloc_block_overlaps_no_block_in_use r h s lk m sz p s' ev b :
  reachable_in_range r h s →
  snd_mem_malloc lk m sz s = Returns (p, s', ev) → s' ≠ s →
  b ∈ pool s → inuse b = true →
  addr b + size b ≤ p ∨ p + align32 sz ≤ addr b.
Proof.
  intros Hreach H Hne Hb Hu.
  apply reachable_in_range_tiles in Hreach as [Hr Ht].
  apply snd_mem_malloc_result in H
    as [(-> & _) |
        (pre & best & suf & _ & _ & _ & _ & Hp & (Hfree & Hge & _) & -> & _
         & _)]; [done |].
  rewrite Hp in Ht, Hb.
  pose proof (tiles_before _ _ _ _ Ht) as Hbefore.
  pose proof (tiles_after _ _ _ _ Ht) as Hafter.
  rewrite Forall_forall in Hbefore, Hafter.
  apply elem_of_app in Hb as [Hb | Hb]; [left; by apply Hbefore |].
  apply elem_of_cons in Hb as [-> | Hb]; [congruence |].
  right. specialize (Hafter b Hb). lia.
Qed.

Lemma malloc_block_overlaps_no_block_in_use_witness :
  0 + 1024 ≤ 1024 ∨ 1024 + align32 100 ≤ 0.
Proof.
  apply (malloc_block_overlaps_no_block_in_use 0 [0]
           (pool_of [mk_block 0 1024 true; mk_block 1024 2096128 false])
           true true 100 1024
           (pool_of [mk_block 0 1024 true; mk_block 1024 128 true;
                     mk_block 1152 2096000 false]) []
           (mk_block 0 1024 true)).
  - exact scenario_A_reachable.
  - reflexivity.
  - discriminate.
  - apply elem_of_cons. by left.
  - reflexivity.
Defined.

Lemma reachable_within_nonempty rmax smax r h s :
  reachable_within rmax smax r h s → pool s ≠ [].
Proof.
  induction 1 as [sd lk m reserve s0 s ev _ _ Hinit
                 | r h s lk m sz p s' ev _ IH _ _ Hm
                 | r h s lk a s' ev _ IH _ Hf
                 | r h s lk v ev _ IH _].
  - apply snd_mem_init_result in Hinit as (-> & _). done.
  - apply snd_mem_malloc_result in Hm
      as [(-> & _) | (pre & ? & ? & _ & _ & _ & _ & _ & _ & _ & _ & Hs')];
      [done |].
    destruct Hs' as [(_ & ->) | (_ & _ & ->)]; by destruct pre.
  - apply snd_mem_free_result in Hf
      as [(-> & _) | [(-> & _) |
          (? & ? & ? & pre1 & ? & ? & ? & _ & _ & _ & _ & _ & _ & _ & _ & _
           & ->)]]; [done | done |].
    by destruct pre1.
  - done.
Qed.

(** Coalescing is complete once everything is free: a pool used within its
    range in which no block is in use is the single free block from the
    rounded reserve to the end of SPU RAM that [snd_mem_init] made. *)
Theorem pool_without_block_in_use_is_initial r h s :
  reachable_in_range r h s →
  Forall (λ b, inuse b = false) (pool s) →
  pool s = [mk_block r (capacity - r) false].
Proof.
  intros Hreach Hfree.
  pose proof (reachable_within_naf _ _ _ _ _ Hreach) as [_ Hnaf].
  pose proof (reachable_within_nonempty _ _ _ _ _ Hreach) as Hne.
  apply reachable_in_range_tiles in Hreach as [_ Ht].
  destruct (pool s) as [| b [| b2 l]]; [done | |].
  - apply Forall_cons in Hfree as [Hb _].
    simpl in Ht. destruct Ht as (Ha & _ & _ & _ & Hend).
    destruct b as [ba bs bu]. simpl in *. subst. f_equal. f_equal. lia.
  - apply Forall_cons in Hfree as [Hb Hfree].
    apply Forall_cons in Hfree as [Hb2 _].
    apply naf_cons2 in Hnaf as [[? | ?] _]; congruence.
Qed.

Lemma pool_without_block_in_use_is_initial_witness :
  pool (pool_of [mk_block 32 2097120 false])
  = [mk_block 32 (capacity - 32) false].
Proof.
  apply (pool_without_block_in_use_is_initial 32 [160; 32]).
  - apply (reach_free _ _ 32 [160; 32]
             (pool_of [mk_block 32 128 true; mk_block 160 2096992 false])
             true 32 _ []); [| range_lia | reflexivity].
    apply (reach_free _ _ 32 [160; 32]
             (pool_of [mk_block 32 128 true; mk_block 160 128 true;
                       mk_block 288 2096864 false])
             true 160 _ []); [| range_lia | reflexivity].
    apply (reach_malloc _ _ 32 [32]
             (pool_of [mk_block 32 128 true; mk_block 160 2096992 false])
             true true 100 160 _ []); [| range_lia | lia | reflexivity].
    apply (reach_malloc _ _ 32 []
             (pool_of [mk_block 32 2097120 false])
             true true 100 32 _ []); [| range_lia | lia | reflexivity].
    apply (reachable_within_init capacity (2 ^ 32 - 32) 32);
      [range_lia | vm_compute; discriminate].
  - repeat constructor.
Defined.

(** Freeing an address twice is harmless in a pool used within its range:
    after [snd_mem_free] has run with the lock, a second [snd_mem_free] of
    the same address leaves the pool as the first one left it. *)
Theorem second_free_changes_nothing r h s a s1 ev :
  reachable_in_range r h s → uint32 a →
  snd_mem_free true a s = Returns (s1, ev) →
  ∃ ev', snd_mem_free true a s1 = Returns (s1, ev').
Proof.
  intros Hreach Hu H1.
  assert (reachable_in_range r h s1) as Hreach1
    by (eapply reach_free; eauto).
  pose proof (reachable_within_naf _ _ _ _ _ Hreach1) as [Hi1 Hnaf1].
  apply reachable_in_range_tiles in Hreach as [_ Ht].
  destruct (snd_mem_free_returns true a s1 Hi1) as (s2 & ev2 & H2).
  exists ev2. rewrite H2. f_equal. f_equal.
  apply snd_mem_free_result in H2
    as [(-> & _) | [(-> & _) |
        (pre' & e' & suf' & pre2 & cur2 & cur2' & suf2 & Ha0 & _ & _ & Hp'
         & _ & He' & Hmp' & Hmn' & Hi2 & Hp2)]]; [done | done |].
  assert (inuse e' = false) as Hfree.
  { assert (e' ∈ pool s1) as Hin
      by (rewrite Hp'; apply elem_of_app; right; apply elem_of_cons; by left).
    apply snd_mem_free_result in H1
      as [(_ & _ & [? | ?]) | [(-> & _ & _ & _ & Hnone) |
          (pre & e & suf & pre1 & cur & cur' & suf1 & _ & _ & _ & Hp & _ & He
           & Hmp & Hmn & _ & Hp1)]]; [done | done | |].
    - rewrite Forall_forall in Hnone. by destruct (Hnone e' Hin).
    - rewrite Hp in Ht.
      pose proof (tiles_middle _ _ _ _ Ht) as (_ & _ & _ & _ & _ & Hlt).
      pose proof (tiles_after_lt _ _ _ _ Ht) as Hgt.
      apply merged_prev_facts in Hmp as (Hcur & k & ->); [| done].
      apply merged_next_facts in Hmn as (Hcur' & _ & k' & ->).
      apply Forall_app in Hlt as [Hlt _]. apply Forall_app in Hgt as [_ Hgt].
      rewrite Forall_forall in Hlt, Hgt.
      rewrite Hp1 in Hin. apply elem_of_app in Hin as [Hin | Hin].
      { specialize (Hlt e' Hin). lia. }
      apply elem_of_cons in Hin as [-> | Hin]; [congruence |].
      specialize (Hgt e' Hin). lia. }
  rewrite Hp' in Hnaf1. apply naf_middle in Hnaf1 as [Hpre Hsuf].
  rewrite <- Hfree, set_inuse_same in Hmp'.
  destruct (merged_prev_of_free _ _ _ _ _ Hpre Hfree Hmp') as [-> ->].
  destruct (merged_next_of_free _ _ _ _ _ Hsuf Hfree Hmn') as [-> ->].
  apply pool_state_eq; congruence.
Qed.

Lemma second_free_changes_nothing_witness :
  ∃ ev', snd_mem_free true 1024
           (pool_of [mk_block 0 1024 true; mk_block 1024 2096128 false])
         = Returns (pool_of [mk_block 0 1024 true;
                             mk_block 1024 2096128 false], ev').
Proof.
  apply (second_free_changes_nothing 0 [1024; 0]
           (pool_of [mk_block 0 1024 true; mk_block 1024 128 true;
                     mk_block 1152 2096000 false]) 1024 _ []).
  - apply (reach_malloc _ _ 0 [0]
             (pool_of [mk_block 0 1024 true; mk_block 1024 2096128 false])
             true true 100 1024 _ []);
      [exact scenario_A_reachable | range_lia | lia | reflexivity].
  - range_lia.
  - reflexivity.
Defined.

(** ** Requests and the largest free block *)

Lemma largest_free_nonneg l : 0 ≤ largest_free l.
Proof. induction l as [| e l IH]; simpl; [lia |]. destruct (inuse e); lia. Qed.

Lemma largest_free_ge l e :
  e ∈ l → inuse e = false → size e ≤ largest_free l.
Proof.
  induction l as [| x l IH]; intros He Hfree; [by apply elem_of_nil in He |].
  apply elem_of_cons in He as [<- | He]; simpl.
  - rewrite Hfree. lia.
  - specialize (IH He Hfree). destruct (inuse x); lia.
Qed.

Lemma largest_free_attained l :
  0 < largest_free l →
  ∃ e, e ∈ l ∧ inuse e = false ∧ size e = largest_free l.
Proof.
  induction l as [| x l IH]; simpl; [lia |]. intros Hpos.
  destruct (inuse x) eqn:Hx.
  - destruct (IH Hpos) as (e & He & ? & ?). exists e.
    split_and!; [apply elem_of_cons; by right | done | done].
  - destruct (Z.max_spec (size x) (largest_free l)) as [[Hlt ->] | [Hge ->]].
    + destruct IH as (e & He & ? & ?); [lia |]. exists e.
      split_and!; [apply elem_of_cons; by right | done | done].
    + exists x. split_and!; [apply elem_of_cons; by left | done | done].
Qed.


Lemma snd_mem_malloc_no_candidate m sz s :
  initted s = true → sz ≠ 0 →
  (∀ e, e ∈ pool s → ¬ candidate (align32 sz) e) →
  snd_mem_malloc true m sz s = Returns (0, s, [LogNoChunk (align32 sz)]).
Proof.
  intros Hi Hz Hnone. apply find_best_None in Hnone.
  unfold snd_mem_malloc. rewrite Hi. simpl.
  apply Z.eqb_neq in Hz. by rewrite Hz, Hnone.
Qed.

(** A request whose rounded size exceeds every free block is refused: with
    the lock acquired [snd_mem_malloc] logs that no chunk is big enough,
    returns 0 and leaves the pool as it is, whether or not a block record could
    be allocated. *)
Theorem malloc_beyond_largest_free_is_refused m sz s :
  initted s = true → sz ≠ 0 →
  largest_free (pool s) < align32 sz →
  snd_mem_malloc true m sz s = Returns (0, s, [LogNoChunk (align32 sz)]).
Proof.
  intros Hi Hz Hbig. apply snd_mem_malloc_no_candidate; [done | done |].
  intros e He (Hfree & Hge & _).
  pose proof (largest_free_ge _ _ He Hfree). lia.
Qed.

Lemma malloc_beyond_largest_free_is_refused_witness :
  snd_mem_malloc true true 2097152
    (pool_of [mk_block 0 1024 true; mk_block 1024 2096128 false])
  = Returns (0, pool_of [mk_block 0 1024 true; mk_block 1024 2096128 false],
             [LogNoChunk (align32 2097152)]).
Proof.
  apply (malloc_beyond_largest_free_is_refused true 2097152
           (pool_of [mk_block 0 1024 true; mk_block 1024 2096128 false])).
  - reflexivity.
  - lia.
  - vm_compute. reflexivity.
Defined.

(** In a pool used within its range, a request of 1 to 2^32 - 32 bytes whose
    rounded size does not exceed the largest free block is granted when the
    lock and a block record are obtained: the call returns the address of a
    block of the rounded size that is now in use, and logs nothing. *)
Theorem malloc_within_largest_free_is_granted r h s sz :
  reachable_in_range r h s → 0 < sz ≤ 2 ^ 32 - 32 →
  align32 sz ≤ largest_free (pool s) →
  ∃ p s', snd_mem_malloc true true sz s = Returns (p, s', []) ∧
          mk_block p (align32 sz) true ∈ pool s'.
Proof.
  intros Hreach Hsz Hfit.
  pose proof (reachable_within_naf _ _ _ _ _ Hreach) as [Hi _].
  apply reachable_in_range_tiles in Hreach as [Hr Ht].
  destruct (align32_round_up sz) as [[Hlo _] _]; [lia |].
  destruct (largest_free_attained (pool s)) as (e & He & Hfree & Hsize);
    [lia |].
  destruct (find_best (align32 sz) (pool s)) as [[i b] |] eqn:Hf.
  2:{ exfalso. apply (proj1 (find_best_None _ _) Hf e He).
      apply list_elem_of_split in He as (pre & suf & Hp). rewrite Hp in Ht.
      apply tiles_middle in Ht as (? & ? & ? & _).
      unfold candidate. split_and!; [done | lia | range_lia]. }
  pose proof (find_best_split _ _ _ _ Hf) as (pre & suf & Hp & -> & _).
  destruct (Z.eq_dec (size b) (align32 sz)) as [Heq | Hne].
  - rewrite (snd_mem_malloc_perfect_fit true sz s _ b Hi ltac:(lia) Hf Heq).
    eexists _, _. split; [done |]. simpl. rewrite Hp, insert_at_middle.
    apply elem_of_app. right. apply elem_of_cons. left.
    unfold set_inuse. by rewrite Heq.
  - rewrite (snd_mem_malloc_split sz s _ b Hi ltac:(lia) Hf Hne).
    eexists _, _. split; [done |]. simpl. rewrite Hp, split_at_middle.
    apply elem_of_app. right. apply elem_of_cons. by left.
Qed.

Lemma malloc_within_largest_free_is_granted_witness :
  ∃ p s', snd_mem_malloc true true 2096128
            (pool_of [mk_block 0 1024 true; mk_block 1024 2096128 false])
          = Returns (p, s', []) ∧
          mk_block p (align32 2096128) true ∈ pool s'.
Proof.
  apply (malloc_within_largest_free_is_granted 0 [0]).
  - exact scenario_A_reachable.
  - lia.
  - vm_compute. discriminate.
Defined.



(** ** Failure of the lock and of the record allocation *)

(** When no block record can be allocated, [snd_mem_malloc] never lengthens
    the queue: either it returns 0 and the pool is as it was, or a free block
    of exactly the rounded size was found, which needs no record, and that
    block is marked in use and its address returned. *)
Theorem malloc_without_block_record lk sz s p s' ev :
  snd_mem_malloc lk false sz s = Returns (p, s', ev) →
  length (pool s') = length (pool s) ∧
  ((s' = s ∧ p = 0) ∨
   ∃ i b, pool s !! i = Some b ∧ inuse b = false ∧ size b = align32 sz ∧
          p = addr b ∧ pool s' = <[i := set_inuse true b]> (pool s)).
Proof.
  intros H.
  apply snd_mem_malloc_result in H
    as [(-> & ->) |
        (pre & b & suf & _ & _ & _ & _ & Hp & (Hfree & _) & -> & _
         & [(Hsz & Hs') | (_ & ? & _)])]; [split; auto | | done].
  rewrite Hs', Hp. split; [by rewrite !length_app |]. right.
  exists (length pre), b. split_and!; try done.
  - by apply list_lookup_middle.
  - by rewrite insert_at_middle.
Qed.

Lemma malloc_without_block_record_witness :
  length (pool (pool_of [mk_block 0 2097152 false]))
  = length (pool (pool_of [mk_block 0 2097152 false])) ∧
  ((pool_of [mk_block 0 2097152 false] = pool_of [mk_block 0 2097152 false]
    ∧ 0 = 0) ∨
   ∃ i b, pool (pool_of [mk_block 0 2097152 false]) !! i = Some b ∧
          inuse b = false ∧ size b = align32 1000 ∧ 0 = addr b ∧
          pool (pool_of [mk_block 0 2097152 false])
          = <[i := set_inuse true b]>
              (pool (pool_of [mk_block 0 2097152 false]))).
Proof.
  apply (malloc_without_block_record true 1000
           (pool_of [mk_block 0 2097152 false]) 0 _ [LogNoMainMemory 1024]).
  reflexivity.
Defined.

(** [snd_mem_init] fails exactly when its lock or its block record is not
    obtained; it then returns -1 with [errno] set to EAGAIN (no lock) or ENOMEM
    (no record).  After the failure the pool is uninitialised if it was so
    before or if the shutdown inside the call got the lock; if neither lock
    was obtained the pool is what it was. *)
Theorem init_failure sd lk m reserve s0 r s ev :
  snd_mem_init sd lk m reserve s0 = (r, s, ev) →
  (r = 0 ↔ lk = true ∧ m = true) ∧
  (r ≠ 0 →
   r = -1 ∧ ev = [SetErrno (if lk then ENOMEM else EAGAIN)] ∧
   (initted s0 = false ∨ sd = true → initted s = false) ∧
   (lk = false → sd = false → s = s0) ∧
   (lk = true → pool s = [])).
Proof.
  unfold snd_mem_init, snd_mem_shutdown.
  destruct s0 as [i0 p0]. simpl.
  destruct lk, m, i0, sd; simpl; intros [= <- <- <-];
    (split; [split; [intros; try done; auto | intros [? ?]; done] |]);
    intros Hr; try done;
    (split_and!; [done | done | intros [? | ?]; done | done | done]).
Qed.

Lemma init_failure_witness :
  (-1 = 0 ↔ true = true ∧ false = true) ∧
  (-1 ≠ 0 →
   -1 = -1 ∧ [SetErrno ENOMEM] = [SetErrno (if true then ENOMEM else EAGAIN)] ∧
   (initted (pool_of [mk_block 0 2097152 false]) = false ∨ true = true →
    initted uninit = false) ∧
   (true = false → true = false →
    uninit = pool_of [mk_block 0 2097152 false]) ∧
   (true = true → pool uninit = [])).
Proof.
  apply (init_failure true true false 64
           (pool_of [mk_block 0 2097152 false])).
  reflexivity.
Defined.

(** [snd_mem_init] shuts an initialised pool down by itself: shutting the
    pool down first, with the lock, gives the same result, whatever the state
    and whether or not the call then succeeds. *)
Theorem shutdown_before_init_is_redundant sd lk m reserve s :
  snd_mem_init sd lk m reserve (snd_mem_shutdown true s)
  = snd_mem_init true lk m reserve s.
Proof.
  unfold snd_mem_init, snd_mem_shutdown.
  destruct s as [i0 p0]. simpl. destruct i0, lk, m; reflexivity.
Qed.

(** ** What holds in every reachable state *)

(** Every state reached from a successful [snd_mem_init], by requests and
    reserves of any 32-bit value, is initialised and has no two adjacent free
    blocks: [snd_mem_malloc] never leaves two free blocks side by side
    either. *)
Theorem reachable_pool_has_no_adjacent_free r h s :
  reachable r h s →
  initted s = true ∧ no_adjacent_free (pool s).
Proof. apply reachable_within_naf. Qed.

Lemma reachable_pool_has_no_adjacent_free_witness :
  initted (pool_of [mk_block 2097184 4294967264 false]) = true ∧
  no_adjacent_free (pool (pool_of [mk_block 2097184 4294967264 false])).
Proof.
  apply (reachable_pool_has_no_adjacent_free 2097184 []).
  exact big_pool_reachable.
Defined.

(** In every reachable state the address of a block in use is an offset
    that [snd_mem_malloc] has returned since the last [snd_mem_init]. *)
Theorem block_in_use_was_returned r h s b :
  reachable r h s → b ∈ pool s → inuse b = true → addr b ∈ h.
Proof.
  intros Hreach Hb Hu.
  apply reachable_within_inuse_returned in Hreach.
  unfold inuse_returned in Hreach. rewrite Forall_forall in Hreach. auto.
Qed.

Lemma block_in_use_was_returned_witness : 0 ∈ [0].
Proof.
  apply (block_in_use_was_returned 0 [0]
           (pool_of [mk_block 0 1024 true; mk_block 1024 2096128 false])
           (mk_block 0 1024 true)).
  - apply reachable_in_range_reachable, scenario_A_reachable.
  - apply elem_of_cons. by left.
  - reflexivity.
Defined.



(** * Properties of the debug console *)

Module DbgioFacts.
Import Dbgio.

Section Facts.

Context {W : Type}.
Implicit Types (st : dbgio_state W) (hs : list (dbgio_handler_t W)).
Implicit Types (h : dbgio_handler_t W) (m : machine W).

Lemma dbgio_dev_select_cases hs nm st r st' :
  dbgio_dev_select hs nm st = (r, st') →
  (r = 0 ∧ dbgio_enabled st' = dbgio_enabled st ∧
   ∃ h, h ∈ hs ∧ name h = nm ∧ dbgio st' = Some h) ∨
  (r = -1 ∧ dbgio st' = dbgio st ∧ dbgio_enabled st' = dbgio_enabled st ∧
   errno (mach st') = Some ENODEV).
Proof.
  induction hs as [| h hs IH]; simpl.
  - intros [= <- <-]. right. done.
  - destruct (String.eqb (name h) nm) eqn:Hn.
    + apply String.eqb_eq in Hn.
      destruct (init h (mach st)) as [ri m].
      destruct (ri =? 0); simpl; intros [= <- <-].
      * left. split_and!; [done | done |]. exists h.
        split_and!; [apply elem_of_cons; by left | done | done].
      * right. done.
    + intros H. destruct (IH H) as [(? & ? & h' & ? & ? & ?) | ?];
        [left | by right].
      split_and!; [done | done |]. exists h'.
      split_and!; [apply elem_of_cons; by right | done | done].
Qed.

(** After [dbgio_dev_select (name)] has returned 0, [dbgio_dev_get] returns
    that name and the selected handler is one of the table; the console is
    enabled or disabled as before: selecting does not enable. *)
Theorem dev_select_then_dev_get hs nm st st' :
  dbgio_dev_select hs nm st = (0, st') →
  dbgio_dev_get st' = Some nm ∧
  dbgio_enabled st' = dbgio_enabled st ∧
  ∃ h, h ∈ hs ∧ dbgio st' = Some h.
Proof.
  intros H. apply dbgio_dev_select_cases in H
    as [(_ & ? & h & ? & Hn & Hd) | (? & _)]; [| done].
  split_and!; [| done | by exists h].
  unfold dbgio_dev_get. by rewrite Hd, Hn.
Qed.

(** A [dbgio_dev_select] that does not return 0 returns -1 with [errno] set
    to ENODEV and leaves the selected handler and the enable flag as they
    were. *)
Theorem dev_select_failure_keeps_handler hs nm st r st' :
  dbgio_dev_select hs nm st = (r, st') → r ≠ 0 →
  r = -1 ∧ dbgio st' = dbgio st ∧ dbgio_enabled st' = dbgio_enabled st ∧
  errno (mach st') = Some ENODEV.
Proof.
  intros H Hr. apply dbgio_dev_select_cases in H as [(? & _) | ?]; done.
Qed.

(** [dbgio_dev_select] deals with the first handler of the table that has
    the name, and with no other: the handlers before it are not called, and
    those after it are not tried even when its [init] fails. *)
Theorem dev_select_first_match_only pre h rest nm st :
  Forall (λ h', name h' ≠ nm) pre → name h = nm →
  dbgio_dev_select (pre ++ h :: rest) nm st = dbgio_dev_select [h] nm st.
Proof.
  intros Hpre Hn. induction Hpre as [| h' pre Hh' _ IH]; simpl.
  - apply String.eqb_eq in Hn. rewrite Hn.
    destruct (init h (mach st)) as [ri m]. by destruct (ri =? 0).
  - apply String.eqb_neq in Hh'. by rewrite Hh'.
Qed.

(** For a name that no handler of the table has, [dbgio_dev_select] calls
    no handler: it returns -1 and changes nothing but [errno]. *)
Theorem dev_select_unknown_name hs nm st :
  Forall (λ h, name h ≠ nm) hs →
  dbgio_dev_select hs nm st
  = (-1, with_mach (set_errno ENODEV (mach st)) st).
Proof.
  induction 1 as [| h hs Hh _ IH]; simpl; [done |].
  apply String.eqb_neq in Hh. by rewrite Hh.
Qed.

Lemma dbgio_init_cases hs st r st' :
  dbgio_init hs st = (r, st') →
  (r = 0 ∧ dbgio_enabled st' = true ∧ ∃ h, h ∈ hs ∧ dbgio st' = Some h) ∨
  (r = -1 ∧ dbgio_enabled st' = dbgio_enabled st ∧
   errno (mach st') = Some ENODEV ∧
   (dbgio st' = None ∨ dbgio st' = dbgio st) ∧
   (dbgio st = None → dbgio st' = None)).
Proof.
  revert st. induction hs as [| h hs IH]; intros st; simpl.
  - intros [= <- <-]. right. split_and!; auto.
  - destruct (detected h (mach st)) as [d m].
    destruct (d =? 0); simpl.
    + intros H. destruct (IH _ H) as [(? & ? & h' & ? & ?) | ?].
      * left. split_and!; [done | done |]. exists h'.
        split; [apply elem_of_cons; by right | done].
      * by right.
    + destruct (init h m) as [ri m'].
      destruct (ri =? 0).
      * intros [= <- <-]. left. split_and!; [done | done |]. exists h.
        split; [apply elem_of_cons; by left | done].
      * intros H.
        destruct (IH _ H) as [(? & ? & h' & ? & ?) | (? & ? & ? & Hd & Hn)].
        -- left. split_and!; [done | done |]. exists h'.
           split; [apply elem_of_cons; by right | done].
        -- right. simpl in *. split_and!; [done | done | done | | auto].
           left. by apply Hn.
Qed.

(** With the null handler in the table [dbgio_init] succeeds, whatever the
    other handlers do: it returns 0, a handler of the table is selected and
    the console is enabled. *)
Theorem init_with_null_handler_succeeds hs st :
  dbgio_null ∈ hs →
  ∃ st' h, dbgio_init hs st = (0, st') ∧
           h ∈ hs ∧ dbgio st' = Some h ∧ dbgio_enabled st' = true.
Proof.
  intros Hnull. revert st.
  induction hs as [| h hs IH]; intros st; [by apply elem_of_nil in Hnull |].
  assert (∀ st0, dbgio_null ∈ hs →
            ∃ st' h', dbgio_init hs st0 = (0, st') ∧ h' ∈ h :: hs ∧
                      dbgio st' = Some h' ∧ dbgio_enabled st' = true) as Hrest.
  { intros st0 Hin. destruct (IH Hin st0) as (st' & h' & ? & ? & ? & ?).
    exists st', h'. split_and!; [done | apply elem_of_cons; by right | done
                                 | done]. }
  apply elem_of_cons in Hnull as [<- | Hnull].
  - simpl. eexists _, dbgio_null.
    split_and!; [done | apply elem_of_cons; by left | done | done].
  - simpl. destruct (detected h (mach st)) as [d m].
    destruct (d =? 0); simpl; [by apply Hrest |].
    destruct (init h m) as [ri m']. destruct (ri =? 0); [| by apply Hrest].
    eexists _, h.
    split_and!; [done | apply elem_of_cons; by left | done | done].
Qed.

(** A [dbgio_init] that does not return 0 returns -1 with [errno] set to
    ENODEV; the selected handler is then the one from before or none, and
    the enable flag is what it was. *)
Theorem init_failure_keeps_enable_flag hs st r st' :
  dbgio_init hs st = (r, st') → r ≠ 0 →
  r = -1 ∧ errno (mach st') = Some ENODEV ∧
  dbgio_enabled st' = dbgio_enabled st ∧
  (dbgio st' = None ∨ dbgio st' = dbgio st).
Proof.
  intros H Hr.
  apply dbgio_init_cases in H as [(? & _) | (? & ? & ? & ? & _)]; done.
Qed.

(** When the first handler of the table is detected and [dbgio_init] finds
    no handler that initialises, a console that was enabled is left enabled
    with no handler selected: the next [dbgio_write] stops at
    [assert (dbgio)]. *)
Theorem failed_init_of_enabled_console h rest st d m r st' c :
  detected h (mach st) = (d, m) → d ≠ 0 →
  dbgio_init (h :: rest) st = (r, st') → r ≠ 0 →
  dbgio_enabled st = true →
  dbgio st' = None ∧ dbgio_write c st' = AssertFails.
Proof.
  intros Hd Hd0 H Hr Hen. simpl in H. rewrite Hd in H.
  apply Z.eqb_neq in Hd0. rewrite Hd0 in H. simpl in H.
  destruct (init h m) as [ri m']. destruct (ri =? 0).
  { injection H as <- _. done. }
  apply dbgio_init_cases in H as [(? & _) | (_ & Hen' & _ & _ & Hn)];
    [done |].
  simpl in Hen'. specialize (Hn eq_refl).
  split; [done |]. unfold dbgio_write, forward. by rewrite Hen', Hen, Hn.
Qed.

(** A console initialised from a table that holds only the null handler
    takes every string of less than 2^31 bytes: [dbgio_write_str] returns the
    length of the string, and nothing changes, no device and not [errno]. *)
Theorem null_console_accepts_every_string st str :
  (Z.of_nat (String.length str) < 2 ^ 31) →
  ∃ st1, dbgio_init [dbgio_null] st = (0, st1) ∧
         devices (mach st1) = devices (mach st) ∧
         dbgio_write_str str st1
         = Returns (Z.of_nat (String.length str), st1).
Proof.
  intros Hlen. eexists. split; [reflexivity |]. split; [done |].
  unfold dbgio_write_str, dbgio_write_buffer_xlat, forward. simpl.
  unfold to_int. rewrite Z.mod_small by lia.
  do 3 f_equal. lia.
Qed.

End Facts.

Lemma dev_select_then_dev_get_witness :
  dbgio_dev_get
    (with_dbgio (Some dbgio_null)
       (mk_dbgio None false (mk_machine None tt)))
  = Some "null".
Proof.
  apply (dev_select_then_dev_get [dbgio_null] "null"
           (mk_dbgio None false (mk_machine None tt))).
  reflexivity.
Defined.

Lemma dev_select_failure_keeps_handler_witness :
  let st := mk_dbgio (Some dbgio_null) true (mk_machine None tt) in
  -1 = -1 ∧ dbgio st = dbgio st ∧ dbgio_enabled st = dbgio_enabled st ∧
  errno (set_errno ENODEV (mach st)) = Some ENODEV.
Proof.
  apply (dev_select_failure_keeps_handler
           [dbgio_null; unresponsive "scif"] "scif"
           (mk_dbgio (Some dbgio_null) true (mk_machine None tt)) (-1)
           (with_mach (set_errno ENODEV (mk_machine None tt))
              (mk_dbgio (Some dbgio_null) true (mk_machine None tt)))).
  - reflexivity.
  - lia.
Defined.

Lemma dev_select_first_match_only_witness :
  let st := mk_dbgio None false (mk_machine None tt) in
  dbgio_dev_select [dbgio_null; unresponsive "scif"; dbgio_null] "scif" st
  = dbgio_dev_select [unresponsive "scif"] "scif" st.
Proof.
  apply (dev_select_first_match_only [dbgio_null] (unresponsive "scif")
           [dbgio_null] "scif").
  - repeat constructor. discriminate.
  - reflexivity.
Defined.

Lemma dev_select_unknown_name_witness :
  let st := mk_dbgio None false (mk_machine None tt) in
  dbgio_dev_select [dbgio_null; unresponsive "scif"] "fb" st
  = (-1, with_mach (set_errno ENODEV (mach st)) st).
Proof.
  apply (dev_select_unknown_name [dbgio_null; unresponsive "scif"] "fb").
  repeat constructor; discriminate.
Defined.

Lemma init_with_null_handler_succeeds_witness :
  let st := mk_dbgio None false (mk_machine None tt) in
  ∃ st' h, dbgio_init [unresponsive "scif"; dbgio_null] st = (0, st') ∧
           h ∈ [unresponsive "scif"; dbgio_null] ∧
           dbgio st' = Some h ∧ dbgio_enabled st' = true.
Proof.
  apply (init_with_null_handler_succeeds [unresponsive "scif"; dbgio_null]).
  apply elem_of_cons. right. apply elem_of_cons. by left.
Defined.

Lemma init_failure_keeps_enable_flag_witness :
  let st := mk_dbgio (Some dbgio_null) true (mk_machine None tt) in
  -1 = -1 ∧ errno (set_errno ENODEV (mach st)) = Some ENODEV ∧
  true = dbgio_enabled st ∧
  (@None (dbgio_handler_t unit) = None ∨ None = dbgio st).
Proof.
  apply (init_failure_keeps_enable_flag [unresponsive "scif"]
           (mk_dbgio (Some dbgio_null) true (mk_machine None tt)) (-1)
           (mk_dbgio None true (set_errno ENODEV (mk_machine None tt)))).
  - reflexivity.
  - lia.
Defined.

Lemma failed_init_of_enabled_console_witness :
  dbgio_write 65
    (mk_dbgio None true (set_errno ENODEV (mk_machine None tt)))
  = AssertFails.
Proof.
  refine (proj2 (failed_init_of_enabled_console (unresponsive "scif") []
           (mk_dbgio (Some dbgio_null) true (mk_machine None tt))
           1 (mk_machine None tt) (-1)
           (mk_dbgio None true (set_errno ENODEV (mk_machine None tt)))
           65 eq_refl _ eq_refl _ eq_refl)); lia.
Defined.

Lemma null_console_accepts_every_string_witness :
  let st := mk_dbgio None false (mk_machine None tt) in
  ∃ st1, dbgio_init [dbgio_null] st = (0, st1) ∧
         devices (mach st1) = devices (mach st) ∧
         dbgio_write_str "ready" st1 = Returns (5, st1).
Proof.
  apply (null_console_accepts_every_string
           (mk_dbgio None false (mk_machine None tt)) "ready").
  simpl. lia.
Defined.

End DbgioFacts.
